(** * authorization.js: a role-based permission evaluator

    A shallow embedding of [src/authorization.js] and the properties of its
    matcher, template expander, role registry and decision procedure.

    Strings are sequences of code units below 256 (the Latin-1 range, on
    which [String.prototype.toLowerCase] is a character-wise map).  A
    JavaScript object used as a dictionary keeps its own properties in a
    [gmap] and its prototype beside it, because [in] and property reads
    follow the prototype chain.  The recursion of [hasPermission] has no
    cycle guard, so it is modelled with fuel and a three-way result. *)

From Stdlib Require Import Ascii.
From stdpp Require Import gmap strings list relations.

Local Open Scope stdpp_scope.
Local Arguments String.append !_ _ / : simpl nomatch.

(** ** JavaScript string primitives *)

Module JS.

(** One code unit of [String.prototype.toLowerCase]: A-Z, and in the
    Latin-1 supplement U+00C0-U+00DE without the multiplication sign. *)
Definition lower_char (c : ascii) : ascii :=
  let n := nat_of_ascii c in
  if ((65 <=? n) && (n <=? 90))%nat
     || ((192 <=? n) && (n <=? 222) && negb (n =? 215))%nat
  then ascii_of_nat (n + 32) else c.

Fixpoint toLowerCase (s : string) : string :=
  match s with
  | EmptyString => EmptyString
  | String c rest => String (lower_char c) (toLowerCase rest)
  end.

(** [s.split(sep)] for a one-character separator: never empty, an empty
    piece on each side of a separator. *)
Fixpoint split (sep : ascii) (s : string) : list string :=
  match s with
  | EmptyString => [EmptyString]
  | String c rest =>
      if Ascii.eqb c sep then EmptyString :: split sep rest
      else match split sep rest with
           | piece :: pieces => String c piece :: pieces
           | [] => [String c EmptyString]
           end
  end.

Fixpoint skip (n : nat) (s : string) : string :=
  match n, s with
  | S n', String _ rest => skip n' rest
  | _, _ => s
  end.

Fixpoint starts_with (pattern s : string) : bool :=
  match pattern, s with
  | EmptyString, _ => true
  | String a pattern', String b s' => Ascii.eqb a b && starts_with pattern' s'
  | String _ _, EmptyString => false
  end.

(** The first occurrence of [pattern] in [s]: the text before it and the
    text after it. *)
Fixpoint find_first (pattern s : string) : option (string * string) :=
  if starts_with pattern s
  then Some (EmptyString, skip (String.length pattern) s)
  else match s with
       | EmptyString => None
       | String c rest =>
           match find_first pattern rest with
           | Some (before, after) => Some (String c before, after)
           | None => None
           end
       end.

(** The replacement text of [String.prototype.replace] for a string
    pattern (no capture groups): [$$], [$&], [$`] and [$'] are expanded,
    every other character stands for itself. *)
Fixpoint GetSubstitution (matched before after replacement : string) : string :=
  match replacement with
  | EmptyString => EmptyString
  | String c rest =>
      let literal := String c (GetSubstitution matched before after rest) in
      if Ascii.eqb c "$" then
        match rest with
        | EmptyString => literal
        | String d rest' =>
            let tail := GetSubstitution matched before after rest' in
            if Ascii.eqb d "$" then String "$" tail
            else if Ascii.eqb d "&" then matched +:+ tail
            else if Ascii.eqb d "`" then before +:+ tail
            else if Ascii.eqb d "'" then after +:+ tail
            else literal
        end
      else literal
  end.

(** [s.replace(pattern, replacement)] with a string pattern: only the
    first occurrence is replaced. *)
Definition replace (s pattern replacement : string) : string :=
  match find_first pattern s with
  | None => s
  | Some (before, after) =>
      before +:+ GetSubstitution pattern before after replacement +:+ after
  end.

End JS.

(** ** PermissionMatcher *)

(** The guard of the [if] in the loop body, on [piecesA[i]] and
    [piecesB[i]]; an index out of range reads [undefined], here [None]. *)
Definition piece_mismatch (a b : option string) : bool :=
  negb (bool_decide (a = b))
  && negb (bool_decide (a = Some "*"))
  && negb (bool_decide (b = Some "*")).

(** The [for] loop at index [i] with [count] iterations left. *)
Fixpoint match_loop (piecesA piecesB : list string) (i count : nat) : bool :=
  match count with
  | 0 => true
  | S count' =>
      if piece_mismatch (piecesA !! i) (piecesB !! i) then false
      else match_loop piecesA piecesB (S i) count'
  end.

Definition isPermissionMatch (permissionA permissionB : string) : bool :=
  let piecesA := JS.split "." (JS.toLowerCase permissionA) in
  let piecesB := JS.split "." (JS.toLowerCase permissionB) in
  match_loop piecesA piecesB 0 (length piecesA `min` length piecesB).

(** ** Data model *)

(** An identifier as the callers pass it: a number or a string.  [===]
    never equates a number with a string. *)
Inductive ident :=
| Num (n : Z)
| Str (s : string).

Global Instance ident_eq_dec : EqDecision ident.
Proof. solve_decision. Defined.

Definition strict_eq (a b : ident) : bool := bool_decide (a = b).

Record User := {
  user_id : ident;                 (* _id *)
  user_name : string * string;     (* name.first, name.last *)
  user_roleIds : list string       (* roleIds *)
}.

Record Role := {
  role_id : string;                (* _id *)
  role_display : string;           (* display *)
  role_permissions : list string;  (* permissions *)
  role_inherits : list string;     (* inherits *)
  role_assignable : bool;          (* assignable *)
  role_default : bool              (* default *)
}.

Global Instance Role_eq_dec : EqDecision Role.
Proof. solve_decision. Defined.

(** A plain object read with [for ... in]: its own enumerable properties in
    enumeration order, each key once. *)
Definition object (V : Type) : Type := list (string * V).

Definition keys {V} (o : object V) : list string := map fst o.

Fixpoint get {V} (o : object V) (key : string) : option V :=
  match o with
  | [] => None
  | (k, v) :: rest => if bool_decide (k = key) then Some v else get rest key
  end.

Record AuthorizationOptions := {
  targetId : option ident;
  static : option (object string);
  all : option (object (list string))
}.

(** [options = {}] *)
Definition no_options : AuthorizationOptions :=
  {| targetId := None; static := None; all := None |}.

(** ** TemplateExpander *)

(** The template literal [`<${key}>`]. *)
Definition placeholder (key : string) : string := "<" +:+ key +:+ ">".

Definition fill_target (userId : ident) (options : AuthorizationOptions)
    (permissions : list string) : list string :=
  match targetId options with
  | Some target =>
      let self := strict_eq userId target in
      map (fun permission =>
             JS.replace permission "<target>" (if self then "self" else "others"))
          permissions
  | None => permissions
  end.

Definition static_step (permissions : list string) (entry : string * string)
    : list string :=
  map (fun permission => JS.replace permission (placeholder entry.1) entry.2)
      permissions.

Definition all_step (permissions : list string) (entry : string * list string)
    : list string :=
  flat_map (fun permission =>
              map (fun value => JS.replace permission (placeholder entry.1) value)
                  entry.2)
           permissions.

Definition fill_static (options : AuthorizationOptions)
    (permissions : list string) : list string :=
  match static options with
  | Some replacements => fold_left static_step replacements permissions
  | None => permissions
  end.

Definition fill_all (options : AuthorizationOptions)
    (permissions : list string) : list string :=
  match all options with
  | Some replacements => fold_left all_step replacements permissions
  | None => permissions
  end.

Definition fillPermissionTemplate (userId : ident) (template : string)
    (options : AuthorizationOptions) : list string :=
  fill_all options (fill_static options (fill_target userId options [template])).

Definition readme_options : AuthorizationOptions :=
  {| targetId := Some (Num 5);
     static := Some [("action", "update")];
     all := Some [("role", ["driver"; "supervisor"])] |}.

(** ** RoleRegistry *)

(** What a property read on [roleMap] can produce. *)
Inductive value :=
| VNull
| VUndefined
| VBoolean (b : bool)
| VString (s : string)
| VStrings (l : list string)
| VRole (role : Role)
| VBuiltin (name : string).       (* a member of Object.prototype *)

Global Instance value_eq_dec : EqDecision value.
Proof. solve_decision. Defined.

(** ToBoolean. *)
Definition truthy (v : value) : bool :=
  match v with
  | VNull | VUndefined => false
  | VBoolean b => b
  | VString s => negb (bool_decide (s = EmptyString))
  | VStrings _ | VRole _ | VBuiltin _ => true
  end.

(** The property names every plain object inherits from Object.prototype. *)
Definition Object_prototype : list string :=
  [ "constructor"; "__defineGetter__"; "__defineSetter__"; "hasOwnProperty";
    "__lookupGetter__"; "__lookupSetter__"; "isPrototypeOf";
    "propertyIsEnumerable"; "toString"; "valueOf"; "__proto__";
    "toLocaleString" ].

(** The own properties of a role object. *)
Definition role_field (role : Role) (key : string) : option value :=
  if bool_decide (key = "_id") then Some (VString (role_id role))
  else if bool_decide (key = "display") then Some (VString (role_display role))
  else if bool_decide (key = "permissions") then Some (VStrings (role_permissions role))
  else if bool_decide (key = "inherits") then Some (VStrings (role_inherits role))
  else if bool_decide (key = "assignable") then Some (VBoolean (role_assignable role))
  else if bool_decide (key = "default") then Some (VBoolean (role_default role))
  else None.

(** The module state: the array [roles] and the object [roleMap], which
    starts as [{}].  [roleMap_proto] is the prototype of [roleMap]: [None]
    for Object.prototype, [Some role] once [roleMap["__proto__"] = role] has
    run the inherited setter. *)
Record Registry := {
  roles : list Role;
  roleMap : gmap string Role;
  roleMap_proto : option Role
}.

Definition empty_registry : Registry :=
  {| roles := []; roleMap := ∅; roleMap_proto := None |}.

(** [key in Object.prototype] and the read [receiver[key]] once the lookup
    reaches Object.prototype; [__proto__] is a getter for the prototype of
    the receiver. *)
Definition inherited (proto : option Role) (key : string) : option value :=
  if bool_decide (key = "__proto__") then
    Some (match proto with Some role => VRole role | None => VBuiltin "__proto__" end)
  else if bool_decide (key ∈ Object_prototype) then Some (VBuiltin key)
  else None.

(** The property [key] of [roleMap] along the prototype chain. *)
Definition roleMap_find (reg : Registry) (key : string) : option value :=
  match roleMap reg !! key with
  | Some role => Some (VRole role)
  | None =>
      match roleMap_proto reg with
      | Some proto =>
          match role_field proto key with
          | Some v => Some v
          | None => inherited (Some proto) key
          end
      | None => inherited None key
      end
  end.

(** [key in authorization.roleMap] *)
Definition roleMap_in (reg : Registry) (key : string) : bool :=
  bool_decide (is_Some (roleMap_find reg key)).

(** [authorization.roleMap[key]] *)
Definition roleMap_get (reg : Registry) (key : string) : value :=
  match roleMap_find reg key with
  | Some v => v
  | None => VUndefined
  end.

(** [authorization.roleMap[key] = role]: an own property is created or
    overwritten, except that [__proto__], unless it is an own property,
    goes to the setter inherited from Object.prototype. *)
Definition roleMap_set (reg : Registry) (key : string) (role : Role) : Registry :=
  if bool_decide (key = "__proto__") && bool_decide (roleMap reg !! key = None)
  then {| roles := roles reg; roleMap := roleMap reg; roleMap_proto := Some role |}
  else {| roles := roles reg; roleMap := <[key := role]> (roleMap reg);
          roleMap_proto := roleMap_proto reg |}.

(** [authorization.roles.push(role)] *)
Definition roles_push (reg : Registry) (role : Role) : Registry :=
  {| roles := roles reg ++ [role]; roleMap := roleMap reg;
     roleMap_proto := roleMap_proto reg |}.

Definition loadRoles (new_roles : list Role) (reg : Registry) : Registry :=
  fold_left (fun reg role => roles_push (roleMap_set reg (role_id role) role) role)
            new_roles reg.

Definition getRole (reg : Registry) (roleId : string) : value :=
  if roleMap_in reg roleId then roleMap_get reg roleId else VNull.

(** ** AuthorizationEngine *)

Inductive error := TypeError.

(** A call returns, throws, or is still running when the fuel is spent. *)
Inductive result (A : Type) :=
| Return (a : A)
| Throw (e : error)
| OutOfFuel.
Arguments Return {A} a.
Arguments Throw {A} e.
Arguments OutOfFuel {A}.

(** [for (const x of xs) if (f(x)) return true;] falling through to
    [return false]. *)
Fixpoint some_of {X} (f : X -> result bool) (xs : list X) : result bool :=
  match xs with
  | [] => Return false
  | x :: rest =>
      match f x with
      | Return true => Return true
      | Return false => some_of f rest
      | Throw e => Throw e
      | OutOfFuel => OutOfFuel
      end
  end.

(** [for (const x of xs) if (!f(x)) return false;] falling through to
    [return true]. *)
Fixpoint every_of {X} (f : X -> result bool) (xs : list X) : result bool :=
  match xs with
  | [] => Return true
  | x :: rest =>
      match f x with
      | Return true => every_of f rest
      | Return false => Return false
      | Throw e => Throw e
      | OutOfFuel => OutOfFuel
      end
  end.

(** The first argument of [hasPermission]: [null], a role id or a user. *)
Inductive subject :=
| SNull
| SRoleId (roleId : string)
| SUser (user : User).

Fixpoint hasPermission (fuel : nat) (reg : Registry) (userOrRoleId : subject)
    (permission : string) : result bool :=
  match fuel with
  | 0 => OutOfFuel
  | S fuel' =>
      match userOrRoleId with
      | SNull => Return false
      | SRoleId roleId =>
          if negb (truthy (VString roleId)) then Return false else
          let role := roleMap_get reg roleId in
          if negb (truthy role) then Return false else
          match role with
          | VRole role =>
              if existsb (fun rolePermission =>
                            isPermissionMatch permission rolePermission)
                         (role_permissions role)
              then Return true
              else some_of (fun childRoleId =>
                              hasPermission fuel' reg (SRoleId childRoleId) permission)
                           (role_inherits role)
          | _ => Throw TypeError   (* role.permissions is undefined: not iterable *)
          end
      | SUser user =>
          some_of (fun roleId => hasPermission fuel' reg (SRoleId roleId) permission)
                  (user_roleIds user)
      end
  end.

Definition isAuthorized (fuel : nat) (reg : Registry) (user : User)
    (template : string) (options : AuthorizationOptions) : result bool :=
  let requiredPermissions :=
    fillPermissionTemplate (user_id user) template options in
  every_of (fun permission => hasPermission fuel reg (SUser user) permission)
           requiredPermissions.

(** [f] returns [v]: it does so once it is given enough fuel. *)
Definition returns {A} (f : nat -> result A) (v : A) : Prop :=
  exists fuel, f fuel = Return v.

(** [f] terminates: it returns or throws. *)
Definition terminates {A} (f : nat -> result A) : Prop :=
  exists fuel, f fuel <> OutOfFuel.

(** A call that has finished finishes the same way with more fuel. *)
Definition monotone {X} (h : nat -> X -> result bool) : Prop :=
  forall fuel fuel' x,
    fuel <= fuel' -> h fuel x <> OutOfFuel -> h fuel' x = h fuel x.

(** The inheritance graph that [hasPermission] walks: an edge from an
    identifier that [roleMap] resolves to a role to each entry of its
    [inherits]. *)
Definition inherits_edge (reg : Registry) (a b : string) : Prop :=
  exists role, roleMap_get reg a = VRole role /\ b ∈ role_inherits role.

Definition acyclic (reg : Registry) : Prop :=
  forall a, ~ tc (inherits_edge reg) a a.

(** ** Specification vocabulary *)

(** [pattern] occurs in [s] between [before] and [after], and nowhere
    further to the left. *)
Definition first_occurrence (pattern s before after : string) : Prop :=
  s = before +:+ pattern +:+ after
  /\ forall before' after', s = before' +:+ pattern +:+ after' ->
       String.length before <= String.length before'.

(** The replacement as the specification words it: the first occurrence of
    [pattern] gives way to [value] itself, character for character. *)
Definition substitute_first (s pattern value : string) : string :=
  match JS.find_first pattern s with
  | None => s
  | Some (before, after) => before +:+ value +:+ after
  end.

(** The [all] step as the specification words it. *)
Definition spec_all_step (permissions : list string)
    (entry : string * list string) : list string :=
  flat_map (fun permission =>
              map (fun value => substitute_first permission (placeholder entry.1) value)
                  entry.2)
           permissions.

Definition spec_fillPermissionTemplate (userId : ident) (template : string)
    (options : AuthorizationOptions) : list string :=
  match all options with
  | Some replacements =>
      fold_left spec_all_step replacements
                (fill_static options (fill_target userId options [template]))
  | None => fill_static options (fill_target userId options [template])
  end.

(** A value with no dollar sign holds no replacement pattern. *)
Fixpoint dollar_free (s : string) : bool :=
  match s with
  | EmptyString => true
  | String c rest => negb (Ascii.eqb c "$") && dollar_free rest
  end.

(** The product of the sizes of the value lists of [options.all], 1 when
    [all] is absent. *)
Definition fanout_size (options : AuthorizationOptions) : nat :=
  match all options with
  | Some replacements =>
      foldr (fun entry size => length entry.2 * size) 1 replacements
  | None => 1
  end.

(** The role loaded last under [roleId] among [loaded]. *)
Fixpoint last_with_id (roleId : string) (loaded : list Role) : option Role :=
  match loaded with
  | [] => None
  | role :: rest =>
      match last_with_id roleId rest with
      | Some later => Some later
      | None => if bool_decide (role_id role = roleId) then Some role else None
      end
  end.

(** ** Example data *)

Definition driver : Role :=
  {| role_id := "driver"; role_display := "Driver";
     role_permissions := ["trips.view.self"]; role_inherits := [];
     role_assignable := true; role_default := true |}.

Definition supervisor : Role :=
  {| role_id := "supervisor"; role_display := "Supervisor";
     role_permissions := ["users.update.*"]; role_inherits := ["driver"];
     role_assignable := true; role_default := false |}.

Definition readme_user : User :=
  {| user_id := Num 5; user_name := ("Jeremy", "Bankes");
     user_roleIds := ["driver"] |}.

(** A value that is a replacement pattern. *)
Definition dollar_options : AuthorizationOptions :=
  {| targetId := None; static := None; all := Some [("k", ["$&"])] |}.

(** A key of [all] with no value. *)
Definition empty_all_options : AuthorizationOptions :=
  {| targetId := Some (Num 5);
     static := Some [("action", "update")];
     all := Some [("role", ["driver"; "supervisor"]); ("scope", [])] |}.

Definition example_registry : Registry :=
  loadRoles [driver; supervisor] empty_registry.

(** A role that inherits from itself. *)
Definition looping : Role :=
  {| role_id := "loop"; role_display := "Loop";
     role_permissions := []; role_inherits := ["loop"];
     role_assignable := false; role_default := false |}.

Definition looping_registry : Registry := loadRoles [looping] empty_registry.

(** A role that inherits from an identifier no role was loaded under. *)
Definition auditor : Role :=
  {| role_id := "auditor"; role_display := "Auditor";
     role_permissions := ["reports.view"]; role_inherits := ["constructor"];
     role_assignable := true; role_default := false |}.

Definition auditor_registry : Registry :=
  loadRoles [driver; supervisor; auditor] empty_registry.

Definition supervising_user : User :=
  {| user_id := Num 7; user_name := ("Sam", "Visor");
     user_roleIds := ["driver"; "supervisor"] |}.

(** A user whose first role identifier names no loaded role. *)
Definition building_user : User :=
  {| user_id := Num 9; user_name := ("Bob", "Builder");
     user_roleIds := ["constructor"; "driver"] |}.

(** ** The remaining operations of the registry *)

(** [getDisplay]: [role === null ? null : role.display] on what [getRole]
    returned.  Only a role has a [display]; reading it off [undefined]
    would throw. *)
Definition getDisplay (reg : Registry) (roleId : string) : result value :=
  match getRole reg roleId with
  | VNull => Return VNull
  | VRole role => Return (VString (role_display role))
  | VUndefined => Throw TypeError
  | VBoolean _ | VString _ | VStrings _ | VBuiltin _ => Return VUndefined
  end.

(** [xs.map(f)]: the calls run left to right and the first one that does
    not return ends the whole. *)
Fixpoint map_calls {X Y} (f : X -> result Y) (xs : list X) : result (list Y) :=
  match xs with
  | [] => Return []
  | x :: rest =>
      match f x with
      | Return y =>
          match map_calls f rest with
          | Return ys => Return (y :: ys)
          | Throw e => Throw e
          | OutOfFuel => OutOfFuel
          end
      | Throw e => Throw e
      | OutOfFuel => OutOfFuel
      end
  end.

(** [getDisplays]: [roleIds.map(authorization.getDisplay)]. *)
Definition getDisplays (reg : Registry) (roleIds : list string)
    : result (list value) :=
  map_calls (getDisplay reg) roleIds.

(** ** Further specification vocabulary *)

(** A role identifier is granted a permission by a permission its role
    holds, or by an identifier its role inherits from. *)
Inductive grants (reg : Registry) (permission : string) : string -> Prop :=
| grants_own roleId role held :
    roleId <> EmptyString ->
    roleMap_get reg roleId = VRole role ->
    held ∈ role_permissions role ->
    isPermissionMatch permission held = true ->
    grants reg permission roleId
| grants_inherited roleId role childRoleId :
    roleId <> EmptyString ->
    roleMap_get reg roleId = VRole role ->
    childRoleId ∈ role_inherits role ->
    grants reg permission childRoleId ->
    grants reg permission roleId.

(** An identifier that [hasPermission] can look up without throwing: the
    empty string, one that reads a falsy value, or one that reads a role. *)
Definition resolvable (reg : Registry) (roleId : string) : Prop :=
  roleId = EmptyString
  \/ truthy (roleMap_get reg roleId) = false
  \/ exists role, roleMap_get reg roleId = VRole role.

(** Every [inherits] entry of every role is resolvable. *)
Definition closed (reg : Registry) : Prop :=
  forall a b, inherits_edge reg a b -> resolvable reg b.

(** No placeholder can start in [s]: it holds no [<]. *)
Fixpoint placeholder_free (s : string) : bool :=
  match s with
  | EmptyString => true
  | String c rest => negb (Ascii.eqb c "<") && placeholder_free rest
  end.

(** A role that holds the wildcard and inherits from itself. *)
Definition root : Role :=
  {| role_id := "root"; role_display := "Root";
     role_permissions := ["*"]; role_inherits := ["root"];
     role_assignable := false; role_default := false |}.

Definition root_registry : Registry := loadRoles [root] empty_registry.

(** [{all: {[key]: [value]}}]: one key of [all] with one value. *)
Definition one_value_options (key value : string) : AuthorizationOptions :=
  {| targetId := None; static := None; all := Some [(key, [value])] |}.

(** No value of [options.all] holds a dollar sign. *)
Definition dollar_free_values (options : AuthorizationOptions) : Prop :=
  match all options with
  | Some replacements =>
      Forall (fun entry => Forall (fun value => dollar_free value = true) entry.2)
             replacements
  | None => True
  end.

(** * Properties *)

(** ** PermissionMatcher *)

Section Matcher.

Implicit Types (a b : option string) (piecesA piecesB : list string).

Lemma piece_mismatch_false a b :
  piece_mismatch a b = false <-> a = b \/ a = Some "*" \/ b = Some "*".
Proof.
  unfold piece_mismatch.
  repeat case_bool_decide; simpl; split; intros Hab; try done; auto.
  destruct Hab as [?|[?|?]]; contradiction.
Qed.

Lemma piece_mismatch_comm a b : piece_mismatch a b = piece_mismatch b a.
Proof.
  unfold piece_mismatch.
  repeat case_bool_decide; simpl; try done; congruence.
Qed.

Lemma piece_mismatch_diag a : piece_mismatch a a = false.
Proof. apply piece_mismatch_false. by left. Qed.

Lemma match_loop_true piecesA piecesB i count :
  match_loop piecesA piecesB i count = true <->
  forall j, i <= j < i + count ->
    piece_mismatch (piecesA !! j) (piecesB !! j) = false.
Proof.
  revert i. induction count as [|count IH]; intros i; simpl.
  - split; [intros _ j Hj; lia | done].
  - destruct (piece_mismatch (piecesA !! i) (piecesB !! i)) eqn:Hi.
    + split; [done | intros H]. rewrite H in Hi by lia. done.
    + rewrite IH. split; intros H j Hj.
      * destruct (decide (j = i)) as [->|]; [done | apply H; lia].
      * apply H. lia.
Qed.

Lemma match_loop_comm piecesA piecesB i count :
  match_loop piecesA piecesB i count = match_loop piecesB piecesA i count.
Proof.
  revert i. induction count as [|count IH]; intros i; simpl; [done|].
  by rewrite piece_mismatch_comm, IH.
Qed.

Lemma match_loop_ext piecesA piecesB piecesA' piecesB' i count :
  (forall j, i <= j < i + count ->
     piecesA !! j = piecesA' !! j /\ piecesB !! j = piecesB' !! j) ->
  match_loop piecesA piecesB i count = match_loop piecesA' piecesB' i count.
Proof.
  revert i. induction count as [|count IH]; intros i H; simpl; [done|].
  destruct (H i) as [-> ->]; [lia|].
  rewrite IH; [done|]. intros j Hj. apply H. lia.
Qed.

Lemma split_nonempty sep s : JS.split sep s <> [].
Proof.
  destruct s as [|c s]; simpl; [done|].
  destruct (Ascii.eqb c sep); [done|]. by destruct (JS.split sep s).
Qed.

Lemma split_app sep s t :
  JS.split sep (s +:+ String sep t) = JS.split sep s ++ JS.split sep t.
Proof.
  induction s as [|c s IH]; simpl.
  - by rewrite Ascii.eqb_refl.
  - rewrite IH. destruct (Ascii.eqb c sep); [done|].
    pose proof (split_nonempty sep s). by destruct (JS.split sep s).
Qed.

(** The loop reads the longer sequence only as far as the shorter one
    reaches. *)
Lemma match_loop_trailing piecesA piecesB trailing :
  length piecesA <= length piecesB ->
  match_loop piecesA (piecesB ++ trailing) 0
             (length piecesA `min` length (piecesB ++ trailing))
  = match_loop piecesA piecesB 0 (length piecesA `min` length piecesB).
Proof.
  intros Hlen. rewrite length_app, !Nat.min_l by lia.
  apply match_loop_ext. intros j Hj. split; [done|].
  apply lookup_app_l. lia.
Qed.

End Matcher.

(** C2: [isPermissionMatch a b] is true exactly when, after lower-casing
    and splitting on the dot, every position below the shorter segment count
    holds equal segments or a ["*"] on either side; segments that follow
    those of the longer string never change the answer; the two quoted
    instances hold. *)
Theorem isPermissionMatch_positions :
  (forall permissionA permissionB : string,
     let piecesA := JS.split "." (JS.toLowerCase permissionA) in
     let piecesB := JS.split "." (JS.toLowerCase permissionB) in
     isPermissionMatch permissionA permissionB = true <->
     forall i, i < length piecesA `min` length piecesB ->
       piecesA !! i = piecesB !! i
       \/ piecesA !! i = Some "*" \/ piecesB !! i = Some "*")
  /\ (forall (permissionA permissionB longer : string) (trailing : list string),
        JS.split "." (JS.toLowerCase longer)
        = JS.split "." (JS.toLowerCase permissionB) ++ trailing ->
        length (JS.split "." (JS.toLowerCase permissionA))
          <= length (JS.split "." (JS.toLowerCase permissionB)) ->
        isPermissionMatch permissionA longer
        = isPermissionMatch permissionA permissionB)
  /\ isPermissionMatch "users.update" "users.update.self.driver" = true
  /\ isPermissionMatch "A.B" "a.b" = true.
Proof.
  split; [|split; [|split; reflexivity]].
  - intros permissionA permissionB piecesA piecesB.
    unfold isPermissionMatch. fold piecesA piecesB.
    rewrite match_loop_true. split; intros H i Hi.
    + apply piece_mismatch_false, H. lia.
    + apply piece_mismatch_false, H. lia.
  - intros permissionA permissionB longer trailing Hlonger Hlen.
    unfold isPermissionMatch. rewrite Hlonger.
    by apply match_loop_trailing.
Qed.

Lemma isPermissionMatch_positions_witness :
  isPermissionMatch "users.*" "users.update.self.driver"
  = isPermissionMatch "users.*" "users.update.self".
Proof.
  apply (proj1 (proj2 isPermissionMatch_positions)
               "users.*" "users.update.self" "users.update.self.driver"
               ["driver"]).
  - reflexivity.
  - vm_compute. lia.
Defined.

(** C4: [isPermissionMatch] is symmetric. *)
Theorem isPermissionMatch_symmetric (permissionA permissionB : string) :
  isPermissionMatch permissionA permissionB
  = isPermissionMatch permissionB permissionA.
Proof.
  unfold isPermissionMatch.
  by rewrite match_loop_comm, Nat.min_comm.
Qed.

(** C8: [isPermissionMatch] is reflexive: after lower-casing, every
    compared pair of segments is equal. *)
Theorem isPermissionMatch_reflexive (permission : string) :
  isPermissionMatch permission permission = true.
Proof.
  unfold isPermissionMatch. apply match_loop_true.
  intros j _. apply piece_mismatch_diag.
Qed.

(** ** TemplateExpander *)

Section Expander.

Implicit Types (permissions : list string) (key : string)
  (values : list string).

Lemma length_static_steps (replacements : list (string * string)) permissions :
  length (fold_left static_step replacements permissions) = length permissions.
Proof.
  revert permissions.
  induction replacements as [|entry replacements IH]; intros permissions;
    simpl; [done|].
  rewrite IH. unfold static_step. apply length_map.
Qed.

Lemma length_fill_target userId options permissions :
  length (fill_target userId options permissions) = length permissions.
Proof.
  unfold fill_target. destruct (targetId options); [apply length_map | done].
Qed.

Lemma length_fill_static options permissions :
  length (fill_static options permissions) = length permissions.
Proof.
  unfold fill_static. destruct (static options); [|done].
  apply length_static_steps.
Qed.

Lemma length_all_step permissions key values :
  length (all_step permissions (key, values))
  = length permissions * length values.
Proof.
  unfold all_step; simpl.
  induction permissions as [|permission permissions IH]; simpl; [done|].
  by rewrite length_app, length_map, IH.
Qed.

Lemma length_all_steps (replacements : list (string * list string)) permissions :
  length (fold_left all_step replacements permissions)
  = length permissions
    * foldr (fun entry size => length entry.2 * size) 1 replacements.
Proof.
  revert permissions.
  induction replacements as [|[key values] replacements IH];
    intros permissions; simpl; [lia|].
  rewrite IH, length_all_step. lia.
Qed.

(** Iterating the entries is iterating the keys and reading each one:
    [options.all[key]] is the value listed with [key]. *)
Lemma get_entry {V} (o : object V) key (v : V) :
  NoDup (keys o) -> (key, v) ∈ o -> get o key = Some v.
Proof.
  unfold keys. induction o as [|[k w] o IH]; simpl; intros Hnodup Hin.
  - by apply elem_of_nil in Hin.
  - apply NoDup_cons in Hnodup as [Hk Hnodup].
    apply elem_of_cons in Hin as [[= <- <-]|Hin].
    + by rewrite bool_decide_eq_true_2.
    + rewrite bool_decide_eq_false_2; [by apply IH|].
      intros ->. apply Hk. change (map fst o) with (o.*1).
      apply list_elem_of_fmap. by exists (key, v).
Qed.

Lemma all_step_nil (entry : string * list string) : all_step [] entry = [].
Proof. done. Qed.

Lemma all_steps_nil (replacements : list (string * list string)) :
  fold_left all_step replacements [] = [].
Proof. induction replacements as [|entry replacements IH]; simpl; done. Qed.

Lemma all_step_no_values permissions key : all_step permissions (key, []) = [].
Proof.
  unfold all_step; simpl.
  induction permissions as [|permission permissions IH]; simpl; done.
Qed.

Lemma all_steps_empty_values (replacements : list (string * list string))
    key permissions :
  (key, []) ∈ replacements ->
  fold_left all_step replacements permissions = [].
Proof.
  revert permissions.
  induction replacements as [|entry replacements IH];
    intros permissions Hin; [by apply elem_of_nil in Hin|].
  apply elem_of_cons in Hin as [<-|Hin]; simpl.
  - rewrite all_step_no_values. apply all_steps_nil.
  - by apply IH.
Qed.

Lemma all_step_lookup permissions key values i j permission value :
  permissions !! i = Some permission ->
  values !! j = Some value ->
  all_step permissions (key, values) !! (i * length values + j)
  = Some (JS.replace permission (placeholder key) value).
Proof.
  unfold all_step; simpl. revert i.
  induction permissions as [|p permissions IH]; intros i Hi Hj; [done|].
  simpl. destruct i as [|i]; simpl in *.
  - injection Hi as ->.
    rewrite lookup_app_l by (rewrite length_map; by eapply lookup_lt_Some).
    change (map ?f values) with (f <$> values).
    by rewrite list_lookup_fmap, Hj.
  - rewrite lookup_app_r by (rewrite length_map; lia).
    rewrite length_map.
    replace (length values + i * length values + j - length values)
      with (i * length values + j) by lia.
    by apply IH.
Qed.

End Expander.

(** ** String replacement *)

Section Replace.

Implicit Types (s t pattern before after value : string).

Lemma append_nil_r s : s +:+ EmptyString = s.
Proof. induction s as [|c s IH]; simpl; [done | by rewrite IH]. Qed.

Lemma append_assoc s t u : (s +:+ t) +:+ u = s +:+ t +:+ u.
Proof. induction s as [|c s IH]; simpl; [done | by rewrite IH]. Qed.

Lemma append_same_length s s' t t' :
  s +:+ t = s' +:+ t' -> String.length s = String.length s' ->
  s = s' /\ t = t'.
Proof.
  revert s'. induction s as [|c s IH]; intros [|c' s'] Heq Hlen;
    simpl in *; try done.
  injection Heq as -> Heq. destruct (IH s' Heq) as [-> ->]; [lia | done].
Qed.

Lemma prefix_append pattern t : JS.starts_with pattern (pattern +:+ t) = true.
Proof.
  induction pattern as [|c pattern IH]; simpl; [done|].
  by rewrite Ascii.eqb_refl.
Qed.

Lemma prefix_skip pattern s :
  JS.starts_with pattern s = true ->
  s = pattern +:+ JS.skip (String.length pattern) s.
Proof.
  revert s. induction pattern as [|c pattern IH]; intros s H; simpl.
  - by destruct s.
  - destruct s as [|d s]; simpl in *; [done|].
    destruct (Ascii.eqb_spec c d) as [->|]; [|done]. f_equal. by apply IH.
Qed.

Lemma find_first_eq pattern s :
  JS.find_first pattern s =
  if JS.starts_with pattern s
  then Some (EmptyString, JS.skip (String.length pattern) s)
  else match s with
       | EmptyString => None
       | String c rest =>
           match JS.find_first pattern rest with
           | Some (before, after) => Some (String c before, after)
           | None => None
           end
       end.
Proof. by destruct s. Qed.

Lemma find_first_Some pattern s before after :
  JS.find_first pattern s = Some (before, after) ->
  first_occurrence pattern s before after.
Proof.
  revert before after. induction s as [|c s IH]; intros before after;
    rewrite find_first_eq; destruct (JS.starts_with pattern _) eqn:Hp;
    try done.
  - intros [= <- <-]. split; [by apply prefix_skip | simpl; lia].
  - intros [= <- <-]. split; [by apply prefix_skip | simpl; lia].
  - destruct (JS.find_first pattern s) as [[b a]|] eqn:Hs; [|done].
    intros [= <- <-]. destruct (IH b a eq_refl) as [-> Hmin].
    split; [done|]. intros [|c' before'] after' Heq; simpl in *.
    + rewrite Heq, prefix_append in Hp. done.
    + injection Heq as _ Heq. apply Hmin in Heq. lia.
Qed.

Lemma find_first_None pattern s :
  JS.find_first pattern s = None ->
  forall before after, s <> before +:+ pattern +:+ after.
Proof.
  induction s as [|c s IH]; rewrite find_first_eq;
    destruct (JS.starts_with pattern _) eqn:Hp; try done;
    intros Hnone [|c' before] after Heq; simpl in *;
    try (rewrite Heq, prefix_append in Hp; done); try done.
  destruct (JS.find_first pattern s) as [[b a]|]; [done|].
  injection Heq as _ Heq. by eapply IH.
Qed.

Lemma first_occurrence_find pattern s before after :
  first_occurrence pattern s before after ->
  JS.find_first pattern s = Some (before, after).
Proof.
  intros [Heq Hmin].
  destruct (JS.find_first pattern s) as [[b a]|] eqn:Hfind.
  - apply find_first_Some in Hfind as [Heq' Hmin'].
    pose proof (Hmin _ _ Heq'). pose proof (Hmin' _ _ Heq).
    rewrite Heq in Heq'.
    apply append_same_length in Heq' as [-> Heq']; [|lia].
    apply append_same_length in Heq' as [_ ->]; done.
  - by eapply find_first_None in Hfind.
Qed.

Lemma GetSubstitution_dollar_free matched before after value :
  dollar_free value = true ->
  JS.GetSubstitution matched before after value = value.
Proof.
  induction value as [|c value IH]; simpl; [done|].
  destruct (Ascii.eqb c "$"); simpl; [done|].
  intros H. by rewrite IH.
Qed.

Lemma replace_dollar_free s pattern value :
  dollar_free value = true ->
  JS.replace s pattern value = substitute_first s pattern value.
Proof.
  intros H. unfold JS.replace, substitute_first.
  destruct (JS.find_first pattern s) as [[before after]|]; [|done].
  by rewrite GetSubstitution_dollar_free.
Qed.

End Replace.

(** ** fillPermissionTemplate *)

(** X19: the shape of the fan-out.  The README call yields the two
    permissions in order; the [all] step runs last, entry after entry in the
    order the keys are enumerated; one key turns the current sequence into
    its row-major product with the value list, entry [(i, j)] being the
    [i]-th string after [replace] with the [j]-th value; [replace] touches
    the first occurrence of the placeholder only and leaves a string without
    it unchanged; a value that holds no dollar sign is inserted as it is. *)
Theorem fill_all_fanout :
  fillPermissionTemplate (Num 5) "users.<action>.<target>.<role>" readme_options
  = ["users.update.self.driver"; "users.update.self.supervisor"]
  /\ (forall userId template options,
        fillPermissionTemplate userId template options
        = fold_left all_step (default [] (all options))
            (fill_static options (fill_target userId options [template])))
  /\ (forall replacements entry permissions,
        fold_left all_step (replacements ++ [entry]) permissions
        = all_step (fold_left all_step replacements permissions) entry)
  /\ (forall permissions key values,
        length (all_step permissions (key, values))
        = length permissions * length values
        /\ forall i j permission value,
             permissions !! i = Some permission ->
             values !! j = Some value ->
             all_step permissions (key, values) !! (i * length values + j)
             = Some (JS.replace permission (placeholder key) value))
  /\ (forall permission pattern value,
        (forall before after,
           first_occurrence pattern permission before after ->
           JS.replace permission pattern value
           = before +:+ JS.GetSubstitution pattern before after value +:+ after)
        /\ ((forall before after, permission <> before +:+ pattern +:+ after) ->
            JS.replace permission pattern value = permission)
        /\ (dollar_free value = true ->
            forall before after,
              JS.GetSubstitution pattern before after value = value)).
Proof.
  split; [reflexivity|]. split; [|split; [|split]].
  - intros userId template options. unfold fillPermissionTemplate, fill_all.
    by destruct (all options).
  - intros replacements entry permissions. by rewrite fold_left_app.
  - intros permissions key values. split; [apply length_all_step|].
    intros i j permission value. apply all_step_lookup.
  - intros permission pattern value. split; [|split].
    + intros before after Hfirst. unfold JS.replace.
      by rewrite (first_occurrence_find _ _ _ _ Hfirst).
    + intros Hnone. unfold JS.replace.
      destruct (JS.find_first pattern permission) as [[before after]|] eqn:Hfind;
        [|done].
      apply find_first_Some in Hfind as [Heq _]. by apply Hnone in Heq.
    + intros Hfree before after. by apply GetSubstitution_dollar_free.
Qed.

Lemma fill_all_fanout_witness :
  all_step ["a.<k>"; "b.<k>"] ("k", ["x"; "y"]) !! (1 * 2 + 0)
  = Some (JS.replace "b.<k>" (placeholder "k") "x").
Proof.
  exact (proj2 (proj1 (proj2 (proj2 (proj2 fill_all_fanout)))
                  ["a.<k>"; "b.<k>"] "k" ["x"; "y"])
               1 0 "b.<k>" "x" eq_refl eq_refl).
Defined.

Section Dollar.

Implicit Types (s pattern value key template : string).

(** With the value [$&] the match gives way to itself. *)
Lemma replace_matched s pattern : JS.replace s pattern "$&" = s.
Proof.
  unfold JS.replace.
  destruct (JS.find_first pattern s) as [[before after]|] eqn:Hfind; [|done].
  apply find_first_Some in Hfind as [-> _].
  change (JS.GetSubstitution pattern before after "$&")
    with (pattern +:+ EmptyString).
  by rewrite append_assoc.
Qed.

Lemma all_step_dollar_free (permissions : list string) key (values : list string) :
  Forall (fun value => dollar_free value = true) values ->
  all_step permissions (key, values) = spec_all_step permissions (key, values).
Proof.
  intros Hfree. unfold all_step, spec_all_step; simpl.
  assert (forall permission,
            map (fun value => JS.replace permission (placeholder key) value) values
            = map (fun value => substitute_first permission (placeholder key) value)
                  values) as Hvalues.
  { intros permission.
    induction Hfree as [|value values Hvalue _ IHvalues]; simpl; [done|].
    rewrite replace_dollar_free by done. by rewrite IHvalues. }
  induction permissions as [|permission permissions IH]; simpl; [done|].
  by rewrite IH, Hvalues.
Qed.

Lemma all_steps_dollar_free (replacements : list (string * list string))
    (permissions : list string) :
  Forall (fun entry => Forall (fun value => dollar_free value = true) entry.2)
         replacements ->
  fold_left all_step replacements permissions
  = fold_left spec_all_step replacements permissions.
Proof.
  intros Hfree. revert permissions.
  induction Hfree as [|[key values] replacements Hentry _ IH];
    intros permissions; simpl; [done|].
  by rewrite all_step_dollar_free, IH.
Qed.

End Dollar.

(** C3 at values that are replacement patterns.  The README call yields the
    two permissions, and as long as no value of [all] holds a dollar sign
    the expansion is the one the claim describes.  But the values go to
    [replace] as replacement strings: [$$] inserts one dollar sign, [$&] the
    placeholder itself, [$`] the text before it and [$'] the text after it,
    so with the value [$&] no template is ever filled, where the claim
    inserts the value. *)
Theorem replacement_patterns_are_expanded :
  fillPermissionTemplate (Num 5) "users.<action>.<target>.<role>" readme_options
  = ["users.update.self.driver"; "users.update.self.supervisor"]
  /\ (forall userId template options,
        dollar_free_values options ->
        fillPermissionTemplate userId template options
        = spec_fillPermissionTemplate userId template options)
  /\ (forall userId template key,
        fillPermissionTemplate userId template (one_value_options key "$&")
        = [template])
  /\ (fillPermissionTemplate (Num 5) "a.<k>" dollar_options = ["a.<k>"]
      /\ spec_fillPermissionTemplate (Num 5) "a.<k>" dollar_options = ["a.$&"])
  /\ (fillPermissionTemplate (Num 5) "a.<k>.b" (one_value_options "k" "$$")
      = ["a.$.b"]
      /\ spec_fillPermissionTemplate (Num 5) "a.<k>.b" (one_value_options "k" "$$")
         = ["a.$$.b"])
  /\ (fillPermissionTemplate (Num 5) "a.<k>.b" (one_value_options "k" "$`")
      = ["a.a..b"]
      /\ spec_fillPermissionTemplate (Num 5) "a.<k>.b" (one_value_options "k" "$`")
         = ["a.$`.b"])
  /\ (fillPermissionTemplate (Num 5) "a.<k>.b" (one_value_options "k" "$'")
      = ["a..b.b"]
      /\ spec_fillPermissionTemplate (Num 5) "a.<k>.b" (one_value_options "k" "$'")
         = ["a.$'.b"])
  /\ (forall matched before after rest,
        JS.GetSubstitution matched before after (String "$" (String "$" rest))
        = String "$" (JS.GetSubstitution matched before after rest)
        /\ JS.GetSubstitution matched before after (String "$" (String "&" rest))
           = matched +:+ JS.GetSubstitution matched before after rest
        /\ JS.GetSubstitution matched before after (String "$" (String "`" rest))
           = before +:+ JS.GetSubstitution matched before after rest
        /\ JS.GetSubstitution matched before after (String "$" (String "'" rest))
           = after +:+ JS.GetSubstitution matched before after rest).
Proof.
  split; [reflexivity|]. split; [|split].
  - intros userId template options Hfree.
    unfold fillPermissionTemplate, spec_fillPermissionTemplate, fill_all.
    unfold dollar_free_values in Hfree.
    destruct (all options) as [replacements|]; [|done].
    by apply all_steps_dollar_free.
  - intros userId template key.
    unfold fillPermissionTemplate, fill_all, fill_static, fill_target,
      one_value_options, all_step; simpl.
    by rewrite replace_matched.
  - repeat split.
Qed.

Lemma replacement_patterns_are_expanded_witness :
  fillPermissionTemplate (Num 5) "users.<action>.<target>.<role>" readme_options
  = spec_fillPermissionTemplate (Num 5) "users.<action>.<target>.<role>"
      readme_options.
Proof.
  apply (proj1 (proj2 replacement_patterns_are_expanded)
               (Num 5) "users.<action>.<target>.<role>" readme_options).
  repeat constructor.
Defined.

(** C10: the result has as many entries as the product of the sizes of the
    value lists of [options.all], 1 without [all], whatever the template,
    [targetId] and [static] are; the [targetId] and [static] steps keep the
    single entry they start from. *)
Theorem fill_length userId template options :
  length (fillPermissionTemplate userId template options) = fanout_size options
  /\ length (fill_static options (fill_target userId options [template])) = 1.
Proof.
  assert (length (fill_static options (fill_target userId options [template])) = 1)
    as Hbase by by rewrite length_fill_static, length_fill_target.
  split; [|done].
  unfold fillPermissionTemplate, fill_all, fanout_size.
  destruct (all options) as [replacements|]; [|done].
  rewrite length_all_steps, Hbase. lia.
Qed.

(** C9: when [options.all] maps some key to an empty list, the expansion is
    empty and [isAuthorized] returns true for every user and template. *)
Theorem empty_all_authorizes options replacements key :
  all options = Some replacements ->
  (key, []) ∈ replacements ->
  (forall userId template, fillPermissionTemplate userId template options = [])
  /\ (forall fuel reg user template,
        isAuthorized fuel reg user template options = Return true).
Proof.
  intros Hall Hkey.
  assert (forall userId template,
            fillPermissionTemplate userId template options = []) as Hfill.
  { intros userId template. unfold fillPermissionTemplate, fill_all.
    rewrite Hall. by eapply all_steps_empty_values. }
  split; [done|]. intros fuel reg user template.
  unfold isAuthorized. by rewrite Hfill.
Qed.

Lemma empty_all_authorizes_witness :
  get (default [] (all empty_all_options)) "scope" = Some []
  /\ (forall userId template,
        fillPermissionTemplate userId template empty_all_options = [])
  /\ (forall fuel reg user template,
        isAuthorized fuel reg user template empty_all_options = Return true).
Proof.
  split; [reflexivity|].
  apply (empty_all_authorizes empty_all_options
           [("role", ["driver"; "supervisor"]); ("scope", [])] "scope").
  - reflexivity.
  - apply list_elem_of_further, list_elem_of_here.
Defined.

(** ** RoleRegistry *)

(** Closes the cases of one assignment to [roleMap]: the key is known or
    known to differ, and each lookup of an insertion is decided. *)
Ltac load_cases :=
  repeat match goal with
         | H : role_id _ = _ |- _ => rewrite H in *
         end;
  rewrite ?lookup_insert in *;
  repeat case_decide; simplify_eq; try done; try congruence.

Section RoleRegistry.

Implicit Types (reg : Registry) (role : Role) (loaded : list Role)
  (roleId key : string).

Lemma loadRoles_cons role loaded reg :
  loadRoles (role :: loaded) reg
  = loadRoles loaded (roles_push (roleMap_set reg (role_id role) role) role).
Proof. done. Qed.

Lemma roles_roleMap_set reg key role : roles (roleMap_set reg key role) = roles reg.
Proof. unfold roleMap_set. by destruct (_ && _). Qed.

Lemma roles_loadRoles loaded reg : roles (loadRoles loaded reg) = roles reg ++ loaded.
Proof.
  revert reg. induction loaded as [|role loaded IH]; intros reg.
  - by rewrite app_nil_r.
  - rewrite loadRoles_cons, IH. simpl. rewrite roles_roleMap_set.
    by rewrite <- app_assoc.
Qed.

Lemma role_field_not_role role key other : role_field role key <> Some (VRole other).
Proof. unfold role_field. repeat case_bool_decide; done. Qed.

Lemma role_field_proto role : role_field role "__proto__" = None.
Proof. done. Qed.

Lemma roleMap_find_VRole reg roleId role :
  roleMap_find reg roleId = Some (VRole role) <->
  roleMap reg !! roleId = Some role
  \/ (roleMap reg !! roleId = None /\ roleId = "__proto__"
      /\ roleMap_proto reg = Some role).
Proof.
  unfold roleMap_find, inherited.
  destruct (roleMap reg !! roleId) as [own|] eqn:Hown.
  { split; [intros [= ->]; by left | intros [[= ->]|[? _]]; done]. }
  destruct (roleMap_proto reg) as [proto|] eqn:Hproto.
  - destruct (role_field proto roleId) as [v|] eqn:Hfield.
    + split.
      * intros [= ->]. by apply role_field_not_role in Hfield.
      * intros [|(_ & -> & [= ->])]; [done|].
        by rewrite role_field_proto in Hfield.
    + repeat case_bool_decide; split;
        try (intros [= ->]; right; done);
        try (intros [|(_ & ? & [= ->])]; done); try done.
      all: intros [|(_ & ? & ?)]; done.
  - repeat case_bool_decide; split; try done.
    all: intros [|(_ & ? & ?)]; done.
Qed.

Lemma roleMap_get_VRole reg roleId role :
  roleMap_get reg roleId = VRole role <->
  roleMap_find reg roleId = Some (VRole role).
Proof.
  unfold roleMap_get. destruct (roleMap_find reg roleId); split; congruence.
Qed.

Lemma getRole_VRole reg roleId role :
  getRole reg roleId = VRole role <->
  roleMap_find reg roleId = Some (VRole role).
Proof.
  unfold getRole, roleMap_in, roleMap_get.
  destruct (roleMap_find reg roleId) as [v|].
  - rewrite bool_decide_eq_true_2 by done. split; congruence.
  - rewrite bool_decide_eq_false_2 by (by intros [? ?]). done.
Qed.

(** The own properties of [roleMap] after a load: a key takes the role
    loaded last under it; [__proto__] stays out unless it was an own
    property before. *)
Lemma roleMap_loadRoles loaded reg key :
  roleMap (loadRoles loaded reg) !! key =
  if bool_decide (key = "__proto__")
     && bool_decide (roleMap reg !! "__proto__" = None)
  then None
  else match last_with_id key loaded with
       | Some role => Some role
       | None => roleMap reg !! key
       end.
Proof.
  revert reg. induction loaded as [|role loaded IH]; intros reg.
  - simpl. repeat case_bool_decide; simplify_eq; done.
  - rewrite loadRoles_cons, IH. simpl. unfold roleMap_set.
    destruct (last_with_id key loaded);
      repeat (case_bool_decide; simpl in * ); load_cases.
Qed.

Lemma proto_loadRoles loaded reg :
  roleMap_proto (loadRoles loaded reg) =
  if bool_decide (roleMap reg !! "__proto__" = None)
  then match last_with_id "__proto__" loaded with
       | Some role => Some role
       | None => roleMap_proto reg
       end
  else roleMap_proto reg.
Proof.
  revert reg. induction loaded as [|role loaded IH]; intros reg.
  - simpl. by case_bool_decide.
  - rewrite loadRoles_cons, IH. simpl. unfold roleMap_set.
    destruct (last_with_id "__proto__" loaded);
      repeat (case_bool_decide; simpl in * ); load_cases.
Qed.

End RoleRegistry.

Section LoadTwice.

Implicit Types (reg : Registry) (role : Role) (loaded : list Role)
  (roleId : string).

Lemma last_with_id_Some roleId loaded role :
  last_with_id roleId loaded = Some role ->
  role ∈ loaded /\ role_id role = roleId.
Proof.
  induction loaded as [|first loaded IH]; simpl; [done|].
  destruct (last_with_id roleId loaded) as [later|].
  - intros [= ->]. destruct IH as [Hin Hid]; [done|].
    split; [by apply list_elem_of_further | done].
  - case_bool_decide; [|done]. intros [= ->].
    split; [apply list_elem_of_here | done].
Qed.

Lemma getRole_loaded loaded reg roleId role :
  last_with_id roleId loaded = Some role ->
  getRole (loadRoles loaded reg) roleId = VRole role.
Proof.
  intros Hlast. apply getRole_VRole, roleMap_find_VRole.
  rewrite roleMap_loadRoles, proto_loadRoles, Hlast.
  repeat (case_bool_decide; simpl); simplify_eq; try (by left).
  right. by rewrite Hlast.
Qed.

Lemma getRole_from_empty loaded roleId role :
  getRole (loadRoles loaded empty_registry) roleId = VRole role ->
  last_with_id roleId loaded = Some role.
Proof.
  intros H. apply getRole_VRole, roleMap_find_VRole in H.
  rewrite roleMap_loadRoles, proto_loadRoles in H. simpl in H.
  rewrite lookup_empty in H.
  rewrite (bool_decide_eq_true_2 (None = None)) in H by done.
  destruct H as [H|(_ & -> & H)].
  - case_bool_decide; simpl in H; [done|].
    by destruct (last_with_id roleId loaded).
  - by destruct (last_with_id "__proto__" loaded).
Qed.

Lemma loadRoles_twice_find loaded reg roleId :
  roleMap_find (loadRoles loaded (loadRoles loaded reg)) roleId
  = roleMap_find (loadRoles loaded reg) roleId.
Proof.
  assert (roleMap (loadRoles loaded (loadRoles loaded reg))
          = roleMap (loadRoles loaded reg)) as Hown.
  { apply map_eq. intros key. rewrite !roleMap_loadRoles.
    destruct (last_with_id key loaded) eqn:Hkey;
      destruct (last_with_id "__proto__" loaded) eqn:Hproto;
      repeat (case_bool_decide; simpl in * ); simplify_eq;
      try done; congruence. }
  assert (roleMap_proto (loadRoles loaded (loadRoles loaded reg))
          = roleMap_proto (loadRoles loaded reg)) as Hproto.
  { rewrite !proto_loadRoles, roleMap_loadRoles.
    destruct (last_with_id "__proto__" loaded);
      repeat (case_bool_decide; simpl in * ); simplify_eq; done. }
  unfold roleMap_find. by rewrite Hown, Hproto.
Qed.

End LoadTwice.

(** C7: loading a role sets the map entry of its identifier to it and
    appends it to the list, so an identifier loaded before now sits at two
    places of the list; loading one list twice doubles the list and leaves
    every [getRole] answer as it was, the role loaded last under each
    identifier. *)
Theorem loadRoles_duplicates :
  (forall reg role,
     getRole (loadRoles [role] reg) (role_id role) = VRole role
     /\ roles (loadRoles [role] reg) = roles reg ++ [role])
  /\ (forall loaded old role,
        getRole (loadRoles loaded empty_registry) (role_id role) = VRole old ->
        role_id old = role_id role
        /\ exists before after,
             roles (loadRoles [role] (loadRoles loaded empty_registry))
             = before ++ old :: after ++ [role])
  /\ (forall loaded reg,
        roles (loadRoles loaded (loadRoles loaded reg))
        = roles reg ++ loaded ++ loaded
        /\ (forall roleId,
              getRole (loadRoles loaded (loadRoles loaded reg)) roleId
              = getRole (loadRoles loaded reg) roleId)
        /\ (forall roleId role,
              last_with_id roleId loaded = Some role ->
              getRole (loadRoles loaded (loadRoles loaded reg)) roleId
              = VRole role)).
Proof.
  split; [|split].
  - intros reg role. split; [|apply roles_loadRoles].
    apply getRole_loaded. simpl. by rewrite bool_decide_eq_true_2.
  - intros loaded old role Hold.
    apply getRole_from_empty, last_with_id_Some in Hold as [Hin Hid].
    split; [done|].
    apply list_elem_of_split in Hin as (before & after & ->).
    exists before, after. rewrite !roles_loadRoles. simpl.
    by rewrite <- app_assoc.
  - intros loaded reg. split; [|split].
    + rewrite !roles_loadRoles. by rewrite <- app_assoc.
    + intros roleId. unfold getRole, roleMap_in, roleMap_get.
      by rewrite loadRoles_twice_find.
    + intros roleId role Hlast. by apply getRole_loaded.
Qed.

Lemma loadRoles_duplicates_witness :
  getRole (loadRoles [driver; supervisor] empty_registry) "driver" = VRole driver
  /\ role_id driver = role_id driver
  /\ exists before after,
       roles (loadRoles [driver] (loadRoles [driver; supervisor] empty_registry))
       = before ++ driver :: after ++ [driver].
Proof.
  split; [reflexivity|].
  exact (proj1 (proj2 loadRoles_duplicates) [driver; supervisor] driver driver
               eq_refl).
Defined.

(** ** Loops with early exit *)

Section Loops.

Context {X : Type}.
Implicit Types (f g : X -> result bool) (xs : list X).

Lemma some_of_true f xs :
  some_of f xs = Return true <->
  exists before x after,
    xs = before ++ x :: after
    /\ (forall y, y ∈ before -> f y = Return false)
    /\ f x = Return true.
Proof.
  induction xs as [|x xs IH]; simpl.
  - split; [done | intros ([|? ?] & ? & ? & ? & _); done].
  - destruct (f x) as [[|]| |] eqn:Hx.
    + split; [intros _ | done]. exists [], x, xs.
      split; [done|]. split; [|done]. intros y Hy. by apply elem_of_nil in Hy.
    + rewrite IH. split.
      * intros (before & y & after & -> & Hb & Hy).
        exists (x :: before), y, after. split; [done|]. split; [|done].
        intros z [->|Hz]%elem_of_cons; auto.
      * intros ([|x' before] & y & after & Heq & Hb & Hy);
          simpl in Heq; simplify_eq; [congruence|].
        exists before, y, after. split; [done|]. split; [|done].
        intros z Hz. apply Hb. by apply list_elem_of_further.
    + split; [done|].
      intros ([|x' before] & y & after & Heq & Hb & Hy);
        simpl in Heq; simplify_eq; [congruence|].
      specialize (Hb x' (list_elem_of_here _ _)). congruence.
    + split; [done|].
      intros ([|x' before] & y & after & Heq & Hb & Hy);
        simpl in Heq; simplify_eq; [congruence|].
      specialize (Hb x' (list_elem_of_here _ _)). congruence.
Qed.

Lemma some_of_false f xs :
  some_of f xs = Return false <-> forall x, x ∈ xs -> f x = Return false.
Proof.
  induction xs as [|x xs IH]; simpl.
  - split; [intros _ y Hy; by apply elem_of_nil in Hy | done].
  - destruct (f x) as [[|]| |] eqn:Hx.
    + split; [done|]. intros H.
      specialize (H x (list_elem_of_here _ _)). congruence.
    + rewrite IH. split.
      * intros H y [->|Hy]%elem_of_cons; auto.
      * intros H y Hy. apply H. by apply list_elem_of_further.
    + split; [done|]. intros H.
      specialize (H x (list_elem_of_here _ _)). congruence.
    + split; [done|]. intros H.
      specialize (H x (list_elem_of_here _ _)). congruence.
Qed.



(** A loop over calls that have all finished finishes, and with more
    fuel it finishes the same way. *)
Lemma some_of_finished f g xs :
  (forall x, x ∈ xs -> f x <> OutOfFuel -> g x = f x) ->
  some_of f xs <> OutOfFuel -> some_of g xs = some_of f xs.
Proof.
  induction xs as [|x xs IH]; simpl; [done|]. intros Hfg Hf.
  rewrite (Hfg x) by (try apply list_elem_of_here; by destruct (f x)).
  destruct (f x) as [[|]| |]; try done.
  apply IH; [|done]. intros y Hy. apply Hfg. by apply list_elem_of_further.
Qed.

Lemma every_of_finished f g xs :
  (forall x, x ∈ xs -> f x <> OutOfFuel -> g x = f x) ->
  every_of f xs <> OutOfFuel -> every_of g xs = every_of f xs.
Proof.
  induction xs as [|x xs IH]; simpl; [done|]. intros Hfg Hf.
  rewrite (Hfg x) by (try apply list_elem_of_here; by destruct (f x)).
  destruct (f x) as [[|]| |]; try done.
  apply IH; [|done]. intros y Hy. apply Hfg. by apply list_elem_of_further.
Qed.

Lemma some_of_terminates f xs :
  (forall x, x ∈ xs -> f x <> OutOfFuel) -> some_of f xs <> OutOfFuel.
Proof.
  induction xs as [|x xs IH]; simpl; [done|]. intros Hf.
  pose proof (Hf x (list_elem_of_here _ _)).
  destruct (f x) as [[|]| |]; try done.
  apply IH. intros y Hy. apply Hf. by apply list_elem_of_further.
Qed.

End Loops.

(** ** Fuel *)

Section Fuel.

Context {X : Type}.

Variable h : nat -> X -> result bool.
Hypothesis h_monotone : monotone h.

Lemma returns_together (v : bool) (xs : list X) :
  (forall x, x ∈ xs -> returns (fun fuel => h fuel x) v) ->
  exists fuel, forall fuel' x, fuel <= fuel' -> x ∈ xs -> h fuel' x = Return v.
Proof.
  induction xs as [|x xs IH]; intros Hxs.
  - exists 0. intros fuel' y _ Hy. by apply elem_of_nil in Hy.
  - destruct IH as [fuel1 H1].
    { intros y Hy. apply Hxs. by apply list_elem_of_further. }
    destruct (Hxs x (list_elem_of_here _ _)) as [fuel2 H2].
    exists (fuel1 `max` fuel2). intros fuel' y Hle [->|Hy]%elem_of_cons.
    + rewrite (h_monotone fuel2 fuel'); [done | lia | by rewrite H2].
    + apply H1; [lia | done].
Qed.


Lemma returns_some_false (xs : list X) :
  returns (fun fuel => some_of (h fuel) xs) false <->
  forall x, x ∈ xs -> returns (fun fuel => h fuel x) false.
Proof.
  split.
  - intros [fuel H] x Hx. exists fuel.
    by eapply some_of_false in H.
  - intros H. apply returns_together in H as [fuel H].
    exists fuel. apply some_of_false. intros x Hx. by apply H.
Qed.



End Fuel.

(** ** hasPermission *)

Section HasPermission.

Variable reg : Registry.
Implicit Types (fuel : nat) (permission roleId : string) (user : User).

Lemma hasPermission_S fuel userOrRoleId permission :
  hasPermission (S fuel) reg userOrRoleId permission =
  match userOrRoleId with
  | SNull => Return false
  | SRoleId roleId =>
      if negb (truthy (VString roleId)) then Return false else
      if negb (truthy (roleMap_get reg roleId)) then Return false else
      match roleMap_get reg roleId with
      | VRole role =>
          if existsb (fun rolePermission =>
                        isPermissionMatch permission rolePermission)
                     (role_permissions role)
          then Return true
          else some_of (fun childRoleId =>
                          hasPermission fuel reg (SRoleId childRoleId) permission)
                       (role_inherits role)
      | _ => Throw TypeError
      end
  | SUser user =>
      some_of (fun roleId => hasPermission fuel reg (SRoleId roleId) permission)
              (user_roleIds user)
  end.
Proof. done. Qed.

Lemma hasPermission_step fuel userOrRoleId permission :
  hasPermission fuel reg userOrRoleId permission <> OutOfFuel ->
  hasPermission (S fuel) reg userOrRoleId permission
  = hasPermission fuel reg userOrRoleId permission.
Proof.
  revert userOrRoleId.
  induction fuel as [|fuel IH]; intros userOrRoleId; [done|].
  rewrite (hasPermission_S (S fuel)), (hasPermission_S fuel).
  destruct userOrRoleId as [|roleId|user]; [done| |].
  - destruct (negb (truthy (VString roleId))); [done|].
    destruct (negb (truthy (roleMap_get reg roleId))); [done|].
    destruct (roleMap_get reg roleId) as [| | | | |role|]; try done.
    destruct (existsb _ _); [done|].
    apply some_of_finished. intros child _. apply IH.
  - apply some_of_finished. intros roleId _. apply IH.
Qed.

Lemma hasPermission_monotone permission :
  monotone (fun fuel userOrRoleId =>
              hasPermission fuel reg userOrRoleId permission).
Proof.
  intros fuel fuel' userOrRoleId Hle Hfin.
  induction Hle as [|fuel' Hle IH]; [done|].
  rewrite hasPermission_step; [done | by rewrite IH].
Qed.




End HasPermission.

Section Decision.

Variable reg : Registry.
Implicit Types (permission roleId : string) (user : User) (role : Role).

Lemma existsb_match permission (held : list string) :
  existsb (fun rolePermission => isPermissionMatch permission rolePermission) held
  = true <->
  exists rolePermission,
    rolePermission ∈ held /\ isPermissionMatch permission rolePermission = true.
Proof.
  rewrite existsb_exists. split; intros (x & Hx & ?); exists x.
  - by rewrite list_elem_of_In.
  - by rewrite <- list_elem_of_In.
Qed.



End Decision.


(** ** Termination *)

Section Termination.

Variable reg : Registry.
Implicit Types (a b : string) (visited : list string).

(** Every identifier with an outgoing edge is a key of [roleMap] or
    [__proto__]. *)
Lemma edge_source a b :
  inherits_edge reg a b -> a ∈ "__proto__" :: (map_to_list (roleMap reg)).*1.
Proof.
  intros (role & Hget & _).
  apply roleMap_get_VRole, roleMap_find_VRole in Hget as [Hown|(_ & -> & _)].
  - apply list_elem_of_further, list_elem_of_fmap. exists (a, role).
    split; [done|]. by apply elem_of_map_to_list.
  - apply list_elem_of_here.
Qed.

Lemma shallow_terminates depth a permission :
  (forall b, ~ nsteps (inherits_edge reg) depth a b) ->
  hasPermission depth reg (SRoleId a) permission <> OutOfFuel.
Proof.
  revert a. induction depth as [|depth IH]; intros a Hdeep.
  - exfalso. apply (Hdeep a). constructor.
  - rewrite hasPermission_S.
    destruct (negb (truthy (VString a))); [done|].
    destruct (negb (truthy (roleMap_get reg a))); [done|].
    destruct (roleMap_get reg a) as [| | | | |role|] eqn:Hget; try done.
    destruct (existsb _ _); [done|].
    apply some_of_terminates. intros child Hchild. apply IH.
    intros b Hb. apply (Hdeep b). eapply nsteps_l; [|done].
    by exists role.
Qed.

Hypothesis reg_acyclic : acyclic reg.

Lemma depth_bound budget visited a b :
  NoDup visited ->
  (forall v, v ∈ visited ->
     v ∈ "__proto__" :: (map_to_list (roleMap reg)).*1) ->
  (forall v, v ∈ visited -> tc (inherits_edge reg) v a) ->
  S (size (roleMap reg)) <= length visited + budget ->
  ~ nsteps (inherits_edge reg) (S budget) a b.
Proof.
  revert visited a.
  induction budget as [|budget IH]; intros visited a Hnodup Hsub Hanc Hlen Hsteps;
    inversion Hsteps as [|? ? c ? Hedge Hrest]; subst.
  all: assert (a ∉ visited) as Hfresh
      by (intros Hin; by apply (reg_acyclic a), Hanc).
  all: assert (NoDup (a :: visited)) as Hnodup' by by constructor.
  all: assert (forall v, v ∈ a :: visited ->
                 v ∈ "__proto__" :: (map_to_list (roleMap reg)).*1) as Hsub'
      by (intros v [->|Hv]%elem_of_cons; [by eapply edge_source | by apply Hsub]).
  all: pose proof (submseteq_length _ _ (NoDup_submseteq _ _ Hnodup' Hsub'))
      as Hcount.
  all: simpl in Hcount; rewrite length_fmap, length_map_to_list in Hcount.
  - lia.
  - eapply (IH (a :: visited) c); [done | done | | simpl; lia | done].
    intros v [->|Hv]%elem_of_cons.
    + by apply tc_once.
    + eapply tc_r; [by apply Hanc | done].
Qed.

Lemma role_terminates a permission fuel :
  size (roleMap reg) + 2 <= fuel ->
  hasPermission fuel reg (SRoleId a) permission <> OutOfFuel.
Proof.
  intros Hfuel.
  assert (hasPermission (S (S (size (roleMap reg)))) reg (SRoleId a) permission
          <> OutOfFuel) as Hfin.
  { apply shallow_terminates. intros b.
    apply (depth_bound _ []); [constructor | | | simpl; lia].
    - intros v Hv. by apply elem_of_nil in Hv.
    - intros v Hv. by apply elem_of_nil in Hv. }
  rewrite (hasPermission_monotone reg permission
             (S (S (size (roleMap reg)))) fuel (SRoleId a));
    [done | lia | done].
Qed.

End Termination.

Lemma acyclic_ranked reg (rank : string -> nat) :
  (forall a b, inherits_edge reg a b -> rank b < rank a) -> acyclic reg.
Proof.
  intros Hrank a Hcycle.
  assert (forall x y, tc (inherits_edge reg) x y -> rank y < rank x) as Hlt.
  { intros x y Hxy. induction Hxy as [x y Hedge|x y z Hedge _ IH].
    - by apply Hrank.
    - apply Hrank in Hedge. lia. }
  apply Hlt in Hcycle. lia.
Qed.

Lemma example_registry_acyclic : acyclic example_registry.
Proof.
  apply (acyclic_ranked _ (fun roleId =>
                             if bool_decide (roleId = "supervisor") then 1 else 0)).
  intros a b (role & Hget & Hb).
  apply roleMap_get_VRole, getRole_VRole, getRole_from_empty in Hget.
  simpl in Hget. repeat case_bool_decide; simplify_eq; simpl in *.
  all: try (by apply elem_of_nil in Hb).
  all: apply list_elem_of_singleton in Hb; simplify_eq; lia.
Qed.

Lemma looping_registry_diverges fuel permission :
  hasPermission fuel looping_registry (SRoleId "loop") permission = OutOfFuel.
Proof.
  induction fuel as [|fuel IH]; [done|].
  rewrite hasPermission_S.
  change (roleMap_get looping_registry "loop") with (VRole looping).
  simpl. by rewrite IH.
Qed.

(** C6: on an acyclic inheritance graph [hasPermission] terminates on every
    input, within a recursion depth bounded by the number of map entries;
    without acyclicity it need not: a role that inherits from itself keeps
    the search running for ever. *)
Theorem hasPermission_terminates :
  (forall reg,
     acyclic reg ->
     forall userOrRoleId permission fuel,
       size (roleMap reg) + 3 <= fuel ->
       hasPermission fuel reg userOrRoleId permission <> OutOfFuel)
  /\ (forall reg userOrRoleId permission,
        acyclic reg ->
        terminates (fun fuel => hasPermission fuel reg userOrRoleId permission))
  /\ (~ acyclic looping_registry
      /\ ~ terminates (fun fuel =>
                         hasPermission fuel looping_registry (SRoleId "loop")
                                       "trips.view.self")).
Proof.
  assert (forall reg,
            acyclic reg ->
            forall userOrRoleId permission fuel,
              size (roleMap reg) + 3 <= fuel ->
              hasPermission fuel reg userOrRoleId permission <> OutOfFuel) as Hbound.
  { intros reg Hacyclic userOrRoleId permission fuel Hfuel.
    destruct userOrRoleId as [|roleId|user].
    - destruct fuel; [lia | done].
    - apply role_terminates; [done | lia].
    - destruct fuel as [|fuel]; [lia|]. rewrite hasPermission_S.
      apply some_of_terminates. intros roleId _.
      apply role_terminates; [done | lia]. }
  split; [done|]. split.
  - intros reg userOrRoleId permission Hacyclic.
    exists (size (roleMap reg) + 3). by apply Hbound.
  - split.
    + intros Hacyclic. apply (Hacyclic "loop"), tc_once.
      exists looping. split; [done|]. apply list_elem_of_here.
    + intros [fuel Hfin]. by rewrite looping_registry_diverges in Hfin.
Qed.

Lemma hasPermission_terminates_witness :
  hasPermission 5 example_registry (SUser readme_user) "trips.view.self"
  <> OutOfFuel.
Proof.
  apply (proj1 hasPermission_terminates example_registry
               example_registry_acyclic).
  vm_compute. lia.
Defined.

(** ** Identifiers without a role *)

Section Absent.

Variable reg : Registry.

Lemma hasPermission_null fuel permission :
  hasPermission (S fuel) reg SNull permission = Return false.
Proof. done. Qed.

(** An identifier that names no property along the prototype chain of
    [roleMap] has no role and no permission. *)
Lemma not_a_property roleId :
  roleMap_find reg roleId = None ->
  getRole reg roleId = VNull
  /\ forall fuel permission,
       hasPermission (S fuel) reg (SRoleId roleId) permission = Return false.
Proof.
  intros Hnone. split.
  - unfold getRole, roleMap_in. rewrite Hnone.
    by rewrite bool_decide_eq_false_2 by (by intros [? ?]).
  - intros fuel permission. rewrite hasPermission_S.
    unfold roleMap_get. rewrite Hnone. simpl. by destruct (negb _).
Qed.

(** With the prototype of [roleMap] untouched, these are the identifiers
    that are neither loaded nor a member of Object.prototype. *)
Lemma roleMap_find_None roleId :
  roleMap_proto reg = None ->
  roleMap reg !! roleId = None ->
  roleId ∉ Object_prototype ->
  roleMap_find reg roleId = None.
Proof.
  intros Hproto Hown Hname. unfold roleMap_find, inherited.
  rewrite Hown, Hproto.
  case_bool_decide as Hp; [|by rewrite bool_decide_eq_false_2].
  exfalso. apply Hname. rewrite Hp. unfold Object_prototype.
  repeat first [apply list_elem_of_here | apply list_elem_of_further].
Qed.

End Absent.

(** C5 at [getRole("constructor")] and [hasPermission("constructor", p)]:
    no role was loaded under the identifier, yet [in] finds the member that
    [roleMap] inherits from Object.prototype, so [getRole] returns it
    instead of null and [hasPermission] throws on its missing
    [permissions]; the same happens through [inherits] and through a
    user's [roleIds].  The null case of the claim holds. *)
Theorem inherited_member_is_not_absent :
  last_with_id "constructor" [driver; supervisor; auditor] = None
  /\ roleMap auditor_registry !! "constructor" = None
  /\ getRole auditor_registry "constructor" = VBuiltin "constructor"
  /\ (forall fuel permission,
        hasPermission (S fuel) auditor_registry (SRoleId "constructor") permission
        = Throw TypeError)
  /\ (forall fuel,
        hasPermission (S (S fuel)) auditor_registry (SRoleId "auditor")
                      "trips.view.self"
        = Throw TypeError)
  /\ (forall fuel,
        hasPermission (S (S fuel)) auditor_registry (SUser building_user)
                      "trips.view.self"
        = Throw TypeError)
  /\ (forall reg fuel permission,
        hasPermission (S fuel) reg SNull permission = Return false).
Proof.
  assert (forall fuel permission,
            hasPermission (S fuel) auditor_registry (SRoleId "constructor")
                          permission = Throw TypeError) as Hthrow.
  { intros fuel permission. rewrite hasPermission_S.
    by change (roleMap_get auditor_registry "constructor")
      with (VBuiltin "constructor"). }
  split; [reflexivity|]. split; [reflexivity|]. split; [reflexivity|].
  split; [done|]. split; [|split; [|done]].
  - intros fuel. reflexivity.
  - intros fuel. reflexivity.
Qed.

(** ** Worked examples *)

Example wildcard_segment :
  isPermissionMatch "users.*.self" "users.delete.self" = true
  /\ isPermissionMatch "users.create.self" "users.delete.self" = false.
Proof. by split. Qed.

Example inheritance_grants :
  hasPermission 2 example_registry (SRoleId "supervisor") "trips.view.self"
  = Return true.
Proof. reflexivity. Qed.

Example unknown_role :
  getRole example_registry "nonexistent" = VNull
  /\ hasPermission 1 example_registry (SRoleId "nonexistent") "trips.view.self"
     = Return false.
Proof. by split. Qed.

Example readme_call :
  isAuthorized 2 example_registry readme_user
               "users.<action>.<target>.<role>" readme_options = Return false
  /\ isAuthorized 2 example_registry supervising_user
                  "users.<action>.<target>.<role>" readme_options = Return true.
Proof. by split. Qed.

Example without_options :
  fillPermissionTemplate (Num 5) "users.<action>.<target>" no_options
  = ["users.<action>.<target>"].
Proof. reflexivity. Qed.

Example number_is_not_string :
  fillPermissionTemplate (Num 5) "users.view.<target>"
    {| targetId := Some (Str "5"); static := None; all := None |}
  = ["users.view.others"].
Proof. reflexivity. Qed.

(** * Further properties *)

(** ** More on isPermissionMatch *)

Lemma lower_char_idempotent c : JS.lower_char (JS.lower_char c) = JS.lower_char c.
Proof. by destruct c as [[] [] [] [] [] [] [] []]. Qed.

Lemma toLowerCase_idempotent s :
  JS.toLowerCase (JS.toLowerCase s) = JS.toLowerCase s.
Proof.
  induction s as [|c s IH]; simpl; [done|].
  by rewrite lower_char_idempotent, IH.
Qed.

Lemma length_split_pos sep s : 1 <= length (JS.split sep s).
Proof.
  pose proof (split_nonempty sep s). destruct (JS.split sep s); simpl; [done|lia].
Qed.

(** X1: the permission ["*"] matches every permission, on either side; so
    matching is not transitive, since two permissions that do not match each
    other both match ["*"]. *)
Theorem star_matches_everything :
  (forall permission,
     isPermissionMatch permission "*" = true
     /\ isPermissionMatch "*" permission = true)
  /\ ~ (forall a b c,
          isPermissionMatch a b = true -> isPermissionMatch b c = true ->
          isPermissionMatch a c = true).
Proof.
  assert (forall permission, isPermissionMatch permission "*" = true) as Hstar.
  { intros permission. unfold isPermissionMatch.
    change (JS.split "." (JS.toLowerCase "*")) with ["*"].
    pose proof (length_split_pos "." (JS.toLowerCase permission)).
    apply match_loop_true. intros j Hj.
    assert (j = 0) as -> by (simpl in Hj; lia).
    apply piece_mismatch_false. right. by right. }
  split.
  - intros permission. split; [apply Hstar|].
    unfold isPermissionMatch. rewrite match_loop_comm, Nat.min_comm.
    apply Hstar.
  - intros Htrans.
    specialize (Htrans "users.create" "*" "users.delete"
                       (Hstar _) eq_refl).
    discriminate Htrans.
Qed.

(** X2: a permission matches every permission whose lower-cased segments
    begin with its own, in both directions: the shorter one decides. *)
Theorem prefix_matches_extension (permission extended : string)
    (trailing : list string) :
  JS.split "." (JS.toLowerCase extended)
  = JS.split "." (JS.toLowerCase permission) ++ trailing ->
  isPermissionMatch permission extended = true
  /\ isPermissionMatch extended permission = true.
Proof.
  intros Hextended.
  assert (isPermissionMatch permission extended = true) as Hforward.
  { unfold isPermissionMatch. rewrite Hextended, length_app.
    rewrite Nat.min_l by lia.
    apply match_loop_true. intros j Hj.
    rewrite lookup_app_l by lia. apply piece_mismatch_diag. }
  split; [done|].
  unfold isPermissionMatch in *. by rewrite match_loop_comm, Nat.min_comm.
Qed.

Lemma prefix_matches_extension_witness :
  isPermissionMatch "users.update" "Users.Update.self.driver" = true
  /\ isPermissionMatch "Users.Update.self.driver" "users.update" = true.
Proof.
  apply (prefix_matches_extension "users.update" "Users.Update.self.driver"
           ["self"; "driver"]).
  reflexivity.
Defined.

(** X3: matching ignores case: lower-casing either argument beforehand
    changes nothing. *)
Theorem match_ignores_case (permissionA permissionB : string) :
  isPermissionMatch (JS.toLowerCase permissionA) permissionB
  = isPermissionMatch permissionA permissionB
  /\ isPermissionMatch permissionA (JS.toLowerCase permissionB)
     = isPermissionMatch permissionA permissionB.
Proof.
  unfold isPermissionMatch. by rewrite !toLowerCase_idempotent.
Qed.

(** ** More on fillPermissionTemplate *)

Section Untouched.

Implicit Types (s key value template : string).

Lemma find_first_placeholder_free key s :
  placeholder_free s = true -> JS.find_first (placeholder key) s = None.
Proof.
  change (placeholder key) with (String "<" (key +:+ ">")).
  induction s as [|c s IH]; intros Hfree; rewrite find_first_eq;
    cbn [JS.starts_with placeholder_free] in *.
  - done.
  - apply andb_true_iff in Hfree as [Hc Hfree].
    rewrite (Ascii.eqb_sym "<" c). apply negb_true_iff in Hc. rewrite Hc.
    cbn [andb]. by rewrite IH.
Qed.

Lemma replace_placeholder_free key value s :
  placeholder_free s = true -> JS.replace s (placeholder key) value = s.
Proof.
  intros Hfree. unfold JS.replace. by rewrite find_first_placeholder_free.
Qed.

Lemma all_step_replicate n template key (values : list string) :
  placeholder_free template = true ->
  all_step (replicate n template) (key, values)
  = replicate (n * length values) template.
Proof.
  intros Hfree. unfold all_step; simpl.
  induction n as [|n IH]; simpl; [done|].
  rewrite IH, replicate_add. f_equal.
  clear IH. induction values as [|value values IH]; simpl; [done|].
  by rewrite replace_placeholder_free, IH.
Qed.

Lemma all_steps_replicate (replacements : list (string * list string)) n template :
  placeholder_free template = true ->
  fold_left all_step replacements (replicate n template)
  = replicate (n * foldr (fun entry size => length entry.2 * size) 1 replacements)
              template.
Proof.
  intros Hfree. revert n.
  induction replacements as [|[key values] replacements IH]; intros n; simpl.
  - by rewrite Nat.mul_1_r.
  - rewrite all_step_replicate, IH by done. f_equal. lia.
Qed.

Lemma static_steps_placeholder_free (replacements : list (string * string)) template :
  placeholder_free template = true ->
  fold_left static_step replacements [template] = [template].
Proof.
  intros Hfree.
  induction replacements as [|[key value] replacements IH]; simpl; [done|].
  unfold static_step at 1; simpl. by rewrite replace_placeholder_free.
Qed.

End Untouched.

(** X4: a template that holds no [<] comes back unchanged, once for every
    combination of [all] values, whatever [targetId] and [static] are. *)
Theorem template_without_placeholder userId template options :
  placeholder_free template = true ->
  fillPermissionTemplate userId template options
  = replicate (fanout_size options) template.
Proof.
  intros Hfree.
  assert (fill_static options (fill_target userId options [template]) = [template])
    as Hbase.
  { unfold fill_target, fill_static.
    destruct (targetId options) as [target|]; simpl.
    - change "<target>" with (placeholder "target").
      rewrite replace_placeholder_free by done.
      destruct (static options); [by apply static_steps_placeholder_free | done].
    - destruct (static options); [by apply static_steps_placeholder_free | done]. }
  unfold fillPermissionTemplate, fill_all, fanout_size. rewrite Hbase.
  destruct (all options) as [replacements|]; [|done].
  change [template] with (replicate 1 template).
  rewrite all_steps_replicate by done. f_equal. lia.
Qed.

Lemma template_without_placeholder_witness :
  fillPermissionTemplate (Num 5) "users.update.self" readme_options
  = replicate (fanout_size readme_options) "users.update.self".
Proof.
  apply (template_without_placeholder (Num 5) "users.update.self" readme_options).
  reflexivity.
Defined.

(** ** More on loadRoles and getRole *)

Section LoadedRoles.

Implicit Types (reg : Registry) (role : Role) (loaded : list Role)
  (roleId : string).

Lemma last_with_id_None roleId loaded :
  (forall role, role ∈ loaded -> role_id role <> roleId) ->
  last_with_id roleId loaded = None.
Proof.
  induction loaded as [|first loaded IH]; intros Hother; simpl; [done|].
  rewrite IH by (intros role Hin; apply Hother; by apply list_elem_of_further).
  rewrite bool_decide_eq_false_2; [done|]. apply Hother, list_elem_of_here.
Qed.

Lemma last_with_id_is_Some roleId loaded role :
  role ∈ loaded -> role_id role = roleId ->
  exists current, last_with_id roleId loaded = Some current.
Proof.
  induction loaded as [|first loaded IH]; intros Hin Hid;
    [by apply elem_of_nil in Hin|].
  simpl. destruct (last_with_id roleId loaded) as [later|] eqn:Hlater; [eauto|].
  apply elem_of_cons in Hin as [->|Hin].
  - rewrite bool_decide_eq_true_2 by done. eauto.
  - destruct (IH Hin Hid) as [? ?]; done.
Qed.

Lemma last_with_id_unique loaded role :
  NoDup (map role_id loaded) -> role ∈ loaded ->
  last_with_id (role_id role) loaded = Some role.
Proof.
  induction loaded as [|first loaded IH]; intros Hnodup Hin;
    [by apply elem_of_nil in Hin|].
  simpl in *. apply NoDup_cons in Hnodup as [Hfirst Hnodup].
  apply elem_of_cons in Hin as [->|Hin].
  - rewrite last_with_id_None; [by rewrite bool_decide_eq_true_2|].
    intros other Hother Hid. apply Hfirst. rewrite <- Hid.
    change (map role_id loaded) with (role_id <$> loaded).
    apply list_elem_of_fmap. by exists other.
  - by rewrite IH.
Qed.

Lemma loadRoles_app loaded later reg :
  loadRoles (loaded ++ later) reg = loadRoles later (loadRoles loaded reg).
Proof. unfold loadRoles. apply fold_left_app. Qed.

Lemma loadRoles_frame_find loaded reg roleId :
  (forall role, role ∈ loaded -> role_id role <> roleId) ->
  (forall role, role ∈ loaded -> role_id role <> "__proto__") ->
  roleMap_find (loadRoles loaded reg) roleId = roleMap_find reg roleId.
Proof.
  intros Hother Hproto. unfold roleMap_find.
  rewrite roleMap_loadRoles, proto_loadRoles.
  rewrite (last_with_id_None roleId), (last_with_id_None "__proto__") by done.
  repeat (case_bool_decide; simpl); simplify_eq; try done.
  by match goal with H : roleMap reg !! _ = None |- _ => rewrite H end.
Qed.

End LoadedRoles.

(** X5: a load leaves [getRole] as it was for every identifier that none of
    the loaded roles carries, provided none of them is called [__proto__]. *)
Theorem loadRoles_keeps_others loaded reg roleId :
  (forall role, role ∈ loaded -> role_id role <> roleId) ->
  (forall role, role ∈ loaded -> role_id role <> "__proto__") ->
  getRole (loadRoles loaded reg) roleId = getRole reg roleId.
Proof.
  intros Hother Hproto. unfold getRole, roleMap_in, roleMap_get.
  by rewrite loadRoles_frame_find.
Qed.

Lemma loadRoles_keeps_others_witness :
  getRole (loadRoles [supervisor] (loadRoles [driver] empty_registry)) "driver"
  = getRole (loadRoles [driver] empty_registry) "driver".
Proof.
  apply (loadRoles_keeps_others [supervisor] (loadRoles [driver] empty_registry)
           "driver").
  - intros role Hin. apply list_elem_of_singleton in Hin. by subst.
  - intros role Hin. apply list_elem_of_singleton in Hin. by subst.
Defined.

(** X6: a role called [__proto__] becomes the prototype of [roleMap] instead
    of an entry: [getRole] still finds it under its identifier, but now also
    answers the names of its fields with their values, and [hasPermission]
    throws on such a name. *)
Theorem proto_role_becomes_prototype role :
  role_id role = "__proto__" ->
  let reg := loadRoles [role] empty_registry in
  roleMap reg = ∅
  /\ getRole reg "__proto__" = VRole role
  /\ getRole reg "display" = VString (role_display role)
  /\ getRole reg "permissions" = VStrings (role_permissions role)
  /\ forall fuel permission,
       hasPermission (S fuel) reg (SRoleId "permissions") permission
       = Throw TypeError.
Proof.
  intros Hid reg.
  assert (reg = {| roles := [role]; roleMap := ∅; roleMap_proto := Some role |})
    as ->.
  { subst reg. unfold loadRoles, roleMap_set, roles_push; simpl.
    rewrite Hid. done. }
  repeat split.
Qed.

Lemma proto_role_becomes_prototype_witness :
  getRole (loadRoles [{| role_id := "__proto__"; role_display := "Proto";
                         role_permissions := ["*"]; role_inherits := [];
                         role_assignable := false; role_default := false |}]
                     empty_registry) "display"
  = VString "Proto".
Proof.
  exact (proj1 (proj2 (proj2
           (proto_role_becomes_prototype
              {| role_id := "__proto__"; role_display := "Proto";
                 role_permissions := ["*"]; role_inherits := [];
                 role_assignable := false; role_default := false |}
              eq_refl)))).
Defined.

(** X7: in a registry built by loads alone, list and map agree: the list
    is what was loaded, in order; every role that [getRole] returns is in
    the list under the identifier asked for; and every identifier in the
    list has a map entry, a role of the list with that identifier.  Loading
    in several calls is loading the concatenation. *)
Theorem registry_list_and_map_agree :
  (forall loaded later reg,
     loadRoles later (loadRoles loaded reg) = loadRoles (loaded ++ later) reg)
  /\ (forall loaded,
        let reg := loadRoles loaded empty_registry in
        roles reg = loaded
        /\ (forall roleId role,
              getRole reg roleId = VRole role ->
              role ∈ roles reg /\ role_id role = roleId)
        /\ (forall role,
              role ∈ roles reg ->
              exists current,
                getRole reg (role_id role) = VRole current
                /\ role_id current = role_id role
                /\ current ∈ roles reg)).
Proof.
  split.
  - intros loaded later reg. by rewrite loadRoles_app.
  - intros loaded reg. subst reg. rewrite roles_loadRoles. simpl.
    split; [done|]. split.
    + intros roleId role Hget.
      by apply getRole_from_empty, last_with_id_Some in Hget.
    + intros role Hin.
      destruct (last_with_id_is_Some (role_id role) loaded role Hin eq_refl)
        as [current Hlast].
      exists current. split; [by apply getRole_loaded|].
      apply last_with_id_Some in Hlast as [? ?]. done.
Qed.

(** ** getDisplay and getDisplays *)

Section Displays.

Implicit Types (reg : Registry) (role : Role) (roleId : string).

Lemma roleMap_find_defined reg roleId :
  roleMap_find reg roleId <> Some VUndefined
  /\ roleMap_find reg roleId <> Some VNull.
Proof.
  unfold roleMap_find, inherited, role_field.
  destruct (roleMap reg !! roleId); [done|].
  destruct (roleMap_proto reg); repeat case_bool_decide; done.
Qed.

Lemma getRole_VNull reg roleId :
  getRole reg roleId = VNull <-> roleMap_find reg roleId = None.
Proof.
  destruct (roleMap_find_defined reg roleId) as [_ Hnull].
  unfold getRole, roleMap_in, roleMap_get.
  destruct (roleMap_find reg roleId) as [v|].
  - rewrite bool_decide_eq_true_2 by done. split; [congruence | done].
  - by rewrite bool_decide_eq_false_2 by (by intros [? ?]).
Qed.

Lemma getRole_defined reg roleId : getRole reg roleId <> VUndefined.
Proof.
  destruct (roleMap_find_defined reg roleId) as [Hundef _].
  unfold getRole, roleMap_in, roleMap_get.
  destruct (roleMap_find reg roleId) as [v|].
  - rewrite bool_decide_eq_true_2 by done. congruence.
  - by rewrite bool_decide_eq_false_2 by (by intros [? ?]).
Qed.

Lemma getDisplay_returns reg roleId : exists v, getDisplay reg roleId = Return v.
Proof.
  pose proof (getRole_defined reg roleId).
  unfold getDisplay. destruct (getRole reg roleId); eauto. done.
Qed.

Lemma map_calls_returns {X Y} (f : X -> result Y) (g : X -> Y) (xs : list X) :
  (forall x, x ∈ xs -> f x = Return (g x)) ->
  map_calls f xs = Return (map g xs).
Proof.
  induction xs as [|x xs IH]; intros Hf; simpl; [done|].
  rewrite (Hf x) by apply list_elem_of_here.
  rewrite IH; [done|]. intros y Hy. apply Hf. by apply list_elem_of_further.
Qed.

Lemma map_calls_pointwise {X Y} (f : X -> result Y) (xs : list X) (ys : list Y) :
  map_calls f xs = Return ys ->
  length ys = length xs
  /\ forall i x, xs !! i = Some x ->
       exists y, ys !! i = Some y /\ f x = Return y.
Proof.
  revert ys. induction xs as [|x xs IH]; intros ys; simpl.
  - intros [= <-]. split; [done|]. intros i x Hi. done.
  - destruct (f x) as [y| |] eqn:Hx; try done.
    destruct (map_calls f xs) as [ys'| |]; try done.
    intros [= <-]. destruct (IH ys' eq_refl) as [Hlen Hat].
    split; [simpl; by rewrite Hlen|].
    intros [|i] x' Hi; simpl in *.
    + injection Hi as <-. eauto.
    + by apply Hat.
Qed.

End Displays.

(** X8: [getDisplay] never throws.  It answers null exactly for an
    identifier that names nothing along the prototype chain of [roleMap],
    the display of the role for an identifier that [getRole] resolves to a
    role, in particular of the role loaded last under it, and
    [undefined], not null, for a member of Object.prototype. *)
Theorem getDisplay_answers :
  (forall reg roleId, exists v, getDisplay reg roleId = Return v)
  /\ (forall reg roleId,
        getDisplay reg roleId = Return VNull <-> roleMap_find reg roleId = None)
  /\ (forall reg roleId role,
        getRole reg roleId = VRole role ->
        getDisplay reg roleId = Return (VString (role_display role)))
  /\ (forall loaded reg roleId role,
        last_with_id roleId loaded = Some role ->
        getDisplay (loadRoles loaded reg) roleId
        = Return (VString (role_display role)))
  /\ (forall reg roleId,
        roleMap reg !! roleId = None -> roleMap_proto reg = None ->
        roleId ∈ Object_prototype ->
        getDisplay reg roleId = Return VUndefined).
Proof.
  split; [apply getDisplay_returns|]. split; [|split; [|split]].
  - intros reg roleId. rewrite <- getRole_VNull.
    pose proof (getRole_defined reg roleId).
    unfold getDisplay. destruct (getRole reg roleId); split; done.
  - intros reg roleId role Hget. unfold getDisplay. by rewrite Hget.
  - intros loaded reg roleId role Hlast. unfold getDisplay.
    by rewrite (getRole_loaded _ _ _ _ Hlast).
  - intros reg roleId Hown Hproto Hname.
    assert (exists name, roleMap_find reg roleId = Some (VBuiltin name))
      as [name Hfind].
    { unfold roleMap_find, inherited. rewrite Hown, Hproto.
      case_bool_decide; [eauto|].
      rewrite bool_decide_eq_true_2 by done. eauto. }
    unfold getDisplay, getRole, roleMap_in, roleMap_get. rewrite Hfind.
    by rewrite bool_decide_eq_true_2 by eauto.
Qed.

Lemma getDisplay_answers_witness :
  getDisplay (loadRoles [driver; supervisor] empty_registry) "supervisor"
  = Return (VString "Supervisor").
Proof.
  exact (proj1 (proj2 (proj2 (proj2 getDisplay_answers)))
               [driver; supervisor] empty_registry "supervisor" supervisor
               eq_refl).
Defined.

(** X9: [getDisplays] never throws and answers position by position: as
    many entries as identifiers, the [i]-th being [getDisplay] of the [i]-th
    identifier.  Asked for the identifiers of a freshly loaded list of roles
    with distinct identifiers, it gives back their displays in order. *)
Theorem getDisplays_in_order :
  (forall reg roleIds,
     exists displays,
       getDisplays reg roleIds = Return displays
       /\ length displays = length roleIds
       /\ forall i roleId,
            roleIds !! i = Some roleId ->
            exists display,
              displays !! i = Some display
              /\ getDisplay reg roleId = Return display)
  /\ (forall loaded reg,
        NoDup (map role_id loaded) ->
        getDisplays (loadRoles loaded reg) (map role_id loaded)
        = Return (map (fun role => VString (role_display role)) loaded)).
Proof.
  split.
  - intros reg roleIds.
    assert (exists displays, getDisplays reg roleIds = Return displays)
      as [displays Hret].
    { unfold getDisplays.
      induction roleIds as [|roleId roleIds [displays IH]]; simpl; [eauto|].
      destruct (getDisplay_returns reg roleId) as [v ->]. rewrite IH. eauto. }
    exists displays. split; [done|]. by apply map_calls_pointwise.
  - intros loaded reg Hnodup. unfold getDisplays.
    assert (forall role,
              role ∈ loaded ->
              getDisplay (loadRoles loaded reg) (role_id role)
              = Return (VString (role_display role))) as Hdisplay.
    { intros role Hin. unfold getDisplay.
      by rewrite (getRole_loaded _ _ _ _ (last_with_id_unique _ _ Hnodup Hin)). }
    clear Hnodup. generalize dependent (loadRoles loaded reg). intros reg' Hdisplay.
    induction loaded as [|role loaded IH]; simpl; [done|].
    rewrite Hdisplay by apply list_elem_of_here.
    rewrite IH; [done|]. intros other Hin. apply Hdisplay.
    by apply list_elem_of_further.
Qed.

Lemma getDisplays_in_order_witness :
  getDisplays (loadRoles [driver; supervisor] empty_registry)
              (map role_id [driver; supervisor])
  = Return (map (fun role => VString (role_display role)) [driver; supervisor]).
Proof.
  apply (proj2 getDisplays_in_order [driver; supervisor] empty_registry).
  simpl. apply NoDup_cons_2; [|apply NoDup_singleton].
  intros Hin. apply list_elem_of_singleton in Hin. discriminate Hin.
Defined.

(** ** More on hasPermission *)

Section Reading.

Variable reg : Registry.
Implicit Types (fuel : nat) (permission roleId : string) (role : Role).

Lemma some_of_pointwise {X} (f g : X -> result bool) (xs : list X) :
  (forall x, f x = g x) -> some_of f xs = some_of g xs.
Proof.
  intros Hfg. induction xs as [|x xs IH]; simpl; [done|].
  by rewrite Hfg, IH.
Qed.

Lemma existsb_pointwise {X} (f g : X -> bool) (xs : list X) :
  (forall x, f x = g x) -> existsb f xs = existsb g xs.
Proof.
  intros Hfg. induction xs as [|x xs IH]; simpl; [done|].
  by rewrite Hfg, IH.
Qed.

Lemma some_of_no_throw {X} (f : X -> result bool) (xs : list X) :
  (forall x e, x ∈ xs -> f x <> Throw e) -> forall e, some_of f xs <> Throw e.
Proof.
  induction xs as [|x xs IH]; intros Hf e; simpl; [done|].
  pose proof (fun e => Hf x e (list_elem_of_here _ _)) as Hx.
  destruct (f x) as [[|]|e'|]; try done.
  apply IH. intros y e' Hy. apply Hf. by apply list_elem_of_further.
Qed.

Lemma some_of_decides {X} (f : X -> result bool) (P : X -> Prop) (xs : list X) :
  (forall x, x ∈ xs -> exists v, f x = Return v /\ (v = true <-> P x)) ->
  exists v, some_of f xs = Return v /\ (v = true <-> exists x, x ∈ xs /\ P x).
Proof.
  induction xs as [|x xs IH]; intros Hf; simpl.
  - exists false. split; [done|]. split; [done|].
    intros (x & Hx & _). by apply elem_of_nil in Hx.
  - destruct (Hf x (list_elem_of_here _ _)) as (v & -> & Hv).
    destruct v.
    + exists true. split; [done|]. split; [|done]. intros _.
      exists x. split; [apply list_elem_of_here | by apply Hv].
    + destruct IH as (w & -> & Hw).
      { intros y Hy. apply Hf. by apply list_elem_of_further. }
      exists w. split; [done|]. rewrite Hw. split.
      * intros (y & Hy & HP). exists y. split; [by apply list_elem_of_further|done].
      * intros (y & [->|Hy]%elem_of_cons & HP); [|eauto].
        apply Hv in HP. done.
Qed.

Lemma every_of_decides {X} (f : X -> result bool) (P : X -> Prop) (xs : list X) :
  (forall x, x ∈ xs -> exists v, f x = Return v /\ (v = true <-> P x)) ->
  exists v, every_of f xs = Return v /\ (v = true <-> forall x, x ∈ xs -> P x).
Proof.
  induction xs as [|x xs IH]; intros Hf; simpl.
  - exists true. split; [done|]. split; [|done].
    intros _ x Hx. by apply elem_of_nil in Hx.
  - destruct (Hf x (list_elem_of_here _ _)) as (v & -> & Hv).
    destruct v.
    + destruct IH as (w & -> & Hw).
      { intros y Hy. apply Hf. by apply list_elem_of_further. }
      exists w. split; [done|]. rewrite Hw. split.
      * intros Hall y [->|Hy]%elem_of_cons; [by apply Hv | by apply Hall].
      * intros Hall y Hy. apply Hall. by apply list_elem_of_further.
    + exists false. split; [done|]. split; [done|]. intros Hall.
      apply Hv, Hall, list_elem_of_here.
Qed.

Lemma every_of_single {X} (f : X -> result bool) (x : X) : every_of f [x] = f x.
Proof. simpl. by destruct (f x) as [[|]| |]. Qed.

Lemma role_body fuel roleId role permission :
  roleId <> EmptyString ->
  roleMap_get reg roleId = VRole role ->
  hasPermission (S fuel) reg (SRoleId roleId) permission =
  if existsb (fun rolePermission => isPermissionMatch permission rolePermission)
             (role_permissions role)
  then Return true
  else some_of (fun childRoleId =>
                  hasPermission fuel reg (SRoleId childRoleId) permission)
               (role_inherits role).
Proof.
  intros Hid Hget. rewrite hasPermission_S, Hget. simpl.
  by rewrite bool_decide_eq_false_2.
Qed.

Lemma role_true_grants fuel roleId permission :
  hasPermission fuel reg (SRoleId roleId) permission = Return true ->
  grants reg permission roleId.
Proof.
  revert roleId. induction fuel as [|fuel IH]; intros roleId; [done|].
  destruct (decide (roleId = EmptyString)) as [->|Hid]; [done|].
  destruct (roleMap_get reg roleId) as [| | | | |role|] eqn:Hget.
  all: try (rewrite hasPermission_S, Hget; simpl;
            rewrite ?bool_decide_eq_false_2 by done; simpl;
            intros Hcall; repeat case_match; done).
  rewrite (role_body _ _ _ _ Hid Hget).
  destruct (existsb _ _) eqn:Hown.
  - intros _. apply existsb_match in Hown as (held & Hin & Hmatch).
    by eapply grants_own.
  - intros Hloop. apply some_of_true in Hloop
      as (before & child & after & Heq & _ & Hchild).
    eapply grants_inherited; [done | done | | by apply IH].
    rewrite Heq. apply elem_of_app. right. apply list_elem_of_here.
Qed.

Lemma role_false_not_grants fuel roleId permission :
  hasPermission fuel reg (SRoleId roleId) permission = Return false ->
  ~ grants reg permission roleId.
Proof.
  revert roleId. induction fuel as [|fuel IH]; intros roleId; [done|].
  intros Hfalse Hgrants.
  destruct Hgrants as [roleId role held Hid Hget Hin Hmatch
                      |roleId role child Hid Hget Hin Hchild];
    rewrite (role_body _ _ _ _ Hid Hget) in Hfalse.
  - assert (existsb (fun rolePermission =>
                       isPermissionMatch permission rolePermission)
                    (role_permissions role) = true) as Hown
        by (apply existsb_match; eauto).
    by rewrite Hown in Hfalse.
  - destruct (existsb _ _); [done|].
    eapply IH; [|done]. by eapply some_of_false in Hfalse.
Qed.

Lemma role_no_throw fuel roleId permission e :
  closed reg -> resolvable reg roleId ->
  hasPermission fuel reg (SRoleId roleId) permission <> Throw e.
Proof.
  intros Hclosed. revert roleId e.
  induction fuel as [|fuel IH]; intros roleId e Hres; [done|].
  destruct Hres as [->|[Hfalsy|[role Hget]]]; [done| |].
  - rewrite hasPermission_S, Hfalsy. simpl. by destruct (negb _).
  - destruct (decide (roleId = EmptyString)) as [->|Hid]; [done|].
    rewrite (role_body _ _ _ _ Hid Hget).
    destruct (existsb _ _); [done|].
    apply some_of_no_throw. intros child e' Hchild. apply IH, (Hclosed roleId).
    by exists role.
Qed.

Lemma role_decides fuel roleId permission :
  acyclic reg -> closed reg -> resolvable reg roleId ->
  size (roleMap reg) + 2 <= fuel ->
  exists v,
    hasPermission fuel reg (SRoleId roleId) permission = Return v
    /\ (v = true <-> grants reg permission roleId).
Proof.
  intros Hacyclic Hclosed Hres Hfuel.
  pose proof (role_terminates reg Hacyclic roleId permission fuel Hfuel) as Hfin.
  pose proof (fun e => role_no_throw fuel roleId permission e Hclosed Hres)
    as Hthrow.
  destruct (hasPermission fuel reg (SRoleId roleId) permission)
    as [[|]|e|] eqn:Hcall; [| |by specialize (Hthrow e)|done].
  - exists true. split; [done|]. split; [|done]. intros _.
    by eapply role_true_grants.
  - exists false. split; [done|]. split; [done|]. intros Hgrants.
    by eapply role_false_not_grants in Hgrants.
Qed.

End Reading.

Lemma example_registry_closed : closed example_registry.
Proof.
  intros a b (role & Hget & Hb).
  apply roleMap_get_VRole, getRole_VRole, getRole_from_empty in Hget.
  simpl in Hget. repeat case_bool_decide; simplify_eq; simpl in *.
  all: try (by apply elem_of_nil in Hb).
  all: apply list_elem_of_singleton in Hb; subst.
  all: right; right; by exists driver.
Qed.

(** X10: a role that itself holds a matching permission is granted it at
    once, before [inherits] is looked at: whatever the role inherits from,
    even itself or an identifier that would throw, cannot change that. *)
Theorem own_permission_is_enough reg roleId role held permission fuel :
  roleId <> EmptyString ->
  roleMap_get reg roleId = VRole role ->
  held ∈ role_permissions role ->
  isPermissionMatch permission held = true ->
  hasPermission (S fuel) reg (SRoleId roleId) permission = Return true.
Proof.
  intros Hid Hget Hin Hmatch. rewrite (role_body _ _ _ _ _ Hid Hget).
  assert (existsb (fun rolePermission =>
                     isPermissionMatch permission rolePermission)
                  (role_permissions role) = true) as ->
      by (apply existsb_match; eauto).
  done.
Qed.

Lemma own_permission_is_enough_witness :
  hasPermission 1 root_registry (SRoleId "root") "users.delete.others"
  = Return true.
Proof.
  apply (own_permission_is_enough root_registry "root" root "*"
           "users.delete.others" 0).
  - discriminate.
  - reflexivity.
  - apply list_elem_of_here.
  - reflexivity.
Defined.

(** X11: the empty role identifier is never granted anything, not even
    when a role was loaded under it and [getRole] returns that role; a user
    whose only role identifier is empty has no permission. *)
Theorem empty_role_id_has_nothing :
  (forall reg fuel permission,
     hasPermission (S fuel) reg (SRoleId EmptyString) permission = Return false)
  /\ (forall reg role,
        role_id role = EmptyString ->
        getRole (loadRoles [role] reg) EmptyString = VRole role)
  /\ (forall reg fuel permission user,
        user_roleIds user = [EmptyString] ->
        hasPermission (S (S fuel)) reg (SUser user) permission = Return false).
Proof.
  split; [done|]. split.
  - intros reg role Hid. apply getRole_loaded. simpl.
    by rewrite bool_decide_eq_true_2.
  - intros reg fuel permission user Hids.
    rewrite hasPermission_S, Hids. done.
Qed.

Lemma empty_role_id_has_nothing_witness :
  getRole (loadRoles [{| role_id := EmptyString; role_display := "Nobody";
                         role_permissions := ["*"]; role_inherits := [];
                         role_assignable := false; role_default := false |}]
                     empty_registry) EmptyString
  = VRole {| role_id := EmptyString; role_display := "Nobody";
             role_permissions := ["*"]; role_inherits := [];
             role_assignable := false; role_default := false |}.
Proof.
  exact (proj1 (proj2 empty_role_id_has_nothing) empty_registry
               {| role_id := EmptyString; role_display := "Nobody";
                  role_permissions := ["*"]; role_inherits := [];
                  role_assignable := false; role_default := false |}
               eq_refl).
Defined.

(** X12: whatever the registry, [hasPermission] answers true for a role
    identifier only if the identifier is granted the permission along
    [inherits], and false only if it is not; for a user, true only if one of
    the role identifiers is granted it, false only if none is. *)
Theorem hasPermission_sound reg permission :
  (forall roleId,
     (returns (fun fuel => hasPermission fuel reg (SRoleId roleId) permission) true ->
      grants reg permission roleId)
     /\ (returns (fun fuel => hasPermission fuel reg (SRoleId roleId) permission)
                 false ->
         ~ grants reg permission roleId))
  /\ (forall user,
        (returns (fun fuel => hasPermission fuel reg (SUser user) permission) true ->
         exists roleId, roleId ∈ user_roleIds user /\ grants reg permission roleId)
        /\ (returns (fun fuel => hasPermission fuel reg (SUser user) permission)
                    false ->
            forall roleId, roleId ∈ user_roleIds user ->
                           ~ grants reg permission roleId)).
Proof.
  split.
  - intros roleId. split; intros [fuel Hcall].
    + by eapply role_true_grants.
    + by eapply role_false_not_grants.
  - intros user. split; intros [[|fuel] Hcall]; try done;
      rewrite hasPermission_S in Hcall.
    + apply some_of_true in Hcall as (before & roleId & after & Heq & _ & Hrole).
      exists roleId. split; [|by eapply role_true_grants].
      rewrite Heq. apply elem_of_app. right. apply list_elem_of_here.
    + intros roleId Hin. eapply role_false_not_grants.
      by eapply some_of_false in Hcall.
Qed.

(** X13: on an acyclic registry whose [inherits] entries are all
    resolvable, [hasPermission] on a resolvable role identifier returns, and
    returns true exactly when the identifier is granted the permission along
    [inherits]. *)
Theorem hasPermission_decides_grants reg roleId permission fuel :
  acyclic reg -> closed reg -> resolvable reg roleId ->
  size (roleMap reg) + 2 <= fuel ->
  (grants reg permission roleId ->
   hasPermission fuel reg (SRoleId roleId) permission = Return true)
  /\ (~ grants reg permission roleId ->
      hasPermission fuel reg (SRoleId roleId) permission = Return false).
Proof.
  intros Hacyclic Hclosed Hres Hfuel.
  destruct (role_decides reg fuel roleId permission Hacyclic Hclosed Hres Hfuel)
    as ([|] & -> & Hv).
  - split; [done|]. intros Hnot. exfalso. by apply Hnot, Hv.
  - split; [|done]. intros Hgrants. by apply Hv in Hgrants.
Qed.

Lemma hasPermission_decides_grants_witness :
  (grants example_registry "trips.view.self" "supervisor" ->
   hasPermission 4 example_registry (SRoleId "supervisor") "trips.view.self"
   = Return true)
  /\ (~ grants example_registry "trips.view.self" "supervisor" ->
      hasPermission 4 example_registry (SRoleId "supervisor") "trips.view.self"
      = Return false).
Proof.
  apply (hasPermission_decides_grants example_registry "supervisor"
           "trips.view.self" 4 example_registry_acyclic example_registry_closed).
  - right. right. by exists supervisor.
  - vm_compute. lia.
Defined.

(** X14: on such a registry, for a user whose role identifiers are all
    resolvable, [isAuthorized] returns, and returns true exactly when every
    permission of the expansion is granted to one of the user's role
    identifiers. *)
Theorem isAuthorized_decides reg user template options fuel :
  acyclic reg -> closed reg ->
  (forall roleId, roleId ∈ user_roleIds user -> resolvable reg roleId) ->
  size (roleMap reg) + 3 <= fuel ->
  exists answer,
    isAuthorized fuel reg user template options = Return answer
    /\ (answer = true <->
        forall permission,
          permission ∈ fillPermissionTemplate (user_id user) template options ->
          exists roleId,
            roleId ∈ user_roleIds user /\ grants reg permission roleId).
Proof.
  intros Hacyclic Hclosed Hres Hfuel.
  destruct fuel as [|fuel]; [lia|].
  unfold isAuthorized. apply every_of_decides. intros permission _.
  rewrite hasPermission_S. apply some_of_decides. intros roleId Hin.
  apply role_decides; [done | done | by apply Hres | lia].
Qed.

Lemma isAuthorized_decides_witness :
  exists answer,
    isAuthorized 5 example_registry supervising_user
                 "users.<action>.<target>.<role>" readme_options = Return answer
    /\ (answer = true <->
        forall permission,
          permission ∈ fillPermissionTemplate (user_id supervising_user)
                         "users.<action>.<target>.<role>" readme_options ->
          exists roleId,
            roleId ∈ user_roleIds supervising_user
            /\ grants example_registry permission roleId).
Proof.
  apply (isAuthorized_decides example_registry supervising_user
           "users.<action>.<target>.<role>" readme_options 5
           example_registry_acyclic example_registry_closed).
  - intros roleId Hin. right. right. simpl in Hin.
    apply elem_of_cons in Hin as [->|Hin]; [by exists driver|].
    apply list_elem_of_singleton in Hin as ->. by exists supervisor.
  - vm_compute. lia.
Defined.

(** X15: without [all] the expansion is a single permission and
    [isAuthorized] is [hasPermission] of the user on it; without any option
    that permission is the template itself. *)
Theorem isAuthorized_single_permission :
  (forall fuel reg user template,
     isAuthorized fuel reg user template no_options
     = hasPermission fuel reg (SUser user) template)
  /\ (forall fuel reg user template options,
        all options = None ->
        exists permission,
          fillPermissionTemplate (user_id user) template options = [permission]
          /\ isAuthorized fuel reg user template options
             = hasPermission fuel reg (SUser user) permission).
Proof.
  split.
  - intros fuel reg user template. unfold isAuthorized.
    change (fillPermissionTemplate (user_id user) template no_options)
      with [template].
    apply every_of_single.
  - intros fuel reg user template options Hall.
    unfold isAuthorized, fillPermissionTemplate, fill_all. rewrite Hall.
    pose proof (length_fill_static options
                  (fill_target (user_id user) options [template])) as Hlen.
    rewrite length_fill_target in Hlen.
    destruct (fill_static options _) as [|permission [|? ?]]; try done.
    exists permission. split; [done|]. apply every_of_single.
Qed.

Lemma isAuthorized_single_permission_witness :
  exists permission,
    fillPermissionTemplate (user_id readme_user) "users.view.<target>"
      {| targetId := Some (Num 5); static := None; all := None |} = [permission]
    /\ isAuthorized 3 example_registry readme_user "users.view.<target>"
         {| targetId := Some (Num 5); static := None; all := None |}
       = hasPermission 3 example_registry (SUser readme_user) permission.
Proof.
  exact (proj2 isAuthorized_single_permission 3 example_registry readme_user
               "users.view.<target>"
               {| targetId := Some (Num 5); static := None; all := None |}
               eq_refl).
Defined.

(** X16: [hasPermission] ignores the case of the permission asked for. *)
Theorem hasPermission_ignores_case reg fuel userOrRoleId permission :
  hasPermission fuel reg userOrRoleId (JS.toLowerCase permission)
  = hasPermission fuel reg userOrRoleId permission.
Proof.
  revert userOrRoleId.
  induction fuel as [|fuel IH]; intros userOrRoleId; [done|].
  rewrite !hasPermission_S. destruct userOrRoleId as [|roleId|user]; [done| |].
  - destruct (negb (truthy (VString roleId))); [done|].
    destruct (negb (truthy (roleMap_get reg roleId))); [done|].
    destruct (roleMap_get reg roleId) as [| | | | |role|]; try done.
    rewrite (existsb_pointwise
               (fun rolePermission =>
                  isPermissionMatch (JS.toLowerCase permission) rolePermission)
               (fun rolePermission => isPermissionMatch permission rolePermission)).
    + destruct (existsb _ _); [done|]. apply some_of_pointwise.
      intros child. apply IH.
    + intros held. unfold isPermissionMatch. by rewrite toLowerCase_idempotent.
  - apply some_of_pointwise. intros roleId. apply IH.
Qed.

(** X17: a held permission whose lower-cased segments are a prefix followed
    by a wildcard matches every permission whose lower-cased segments begin
    with that prefix, however many segments follow. *)
Theorem trailing_wildcard (held required : string) (prefix rest : list string) :
  JS.split "." (JS.toLowerCase held) = prefix ++ ["*"] ->
  JS.split "." (JS.toLowerCase required) = prefix ++ rest ->
  isPermissionMatch required held = true.
Proof.
  intros Hheld Hrequired. unfold isPermissionMatch.
  rewrite Hheld, Hrequired.
  apply match_loop_true. intros j Hj. rewrite !length_app in Hj. simpl in Hj.
  apply piece_mismatch_false.
  destruct (decide (j < length prefix)) as [Hlt|Hge].
  - left. by rewrite !lookup_app_l by done.
  - right. right. rewrite lookup_app_r by lia.
    by replace (j - length prefix) with 0 by lia.
Qed.

Lemma trailing_wildcard_witness :
  isPermissionMatch "users.update.self.driver" "users.*" = true.
Proof.
  apply (trailing_wildcard "users.*" "users.update.self.driver"
           ["users"] ["update"; "self"; "driver"]); reflexivity.
Defined.

(** X18: after a load of roles with distinct identifiers, [getRole] gives
    back each of them under its identifier, whatever the registry held. *)
Theorem getRole_after_load loaded reg role :
  NoDup (map role_id loaded) ->
  role ∈ loaded ->
  getRole (loadRoles loaded reg) (role_id role) = VRole role.
Proof.
  intros Hnodup Hin. by apply getRole_loaded, last_with_id_unique.
Qed.

Lemma getRole_after_load_witness :
  getRole (loadRoles [driver; supervisor] looping_registry) (role_id supervisor)
  = VRole supervisor.
Proof.
  apply (getRole_after_load [driver; supervisor] looping_registry supervisor).
  - simpl. apply NoDup_cons_2; [|apply NoDup_singleton].
    intros Hin. apply list_elem_of_singleton in Hin. discriminate Hin.
  - apply list_elem_of_further, list_elem_of_here.
Defined.
